(** * BLAKE2sp tree hashing: a model of [c_src/blake2sp.c]

    The file embeds the NIF entry point [blake2sp_hash] and its two helpers
    [blake2sp_init_leaf] and [blake2sp_init_root] as state-passing functions
    over the local objects of [blake2sp_hash] (the eight leaf states [S], the
    root state [FS], the lane digests [hash], the key [block] and the output
    buffer [out]), together with the sequence of calls made into the BLAKE2s
    library. *)

From Stdlib Require Import ZArith List Lia Bool.
From Stdlib.Strings Require Import Byte.
From stdpp Require Import base list.
Import ListNotations.
Local Open Scope Z_scope.

(** ** Constants *)

(** Line 28 of the source. *)
Definition PARALLELISM_DEGREE : Z := 8.

(** Modelled from the spec: the constants below are declared in blake2.h,
    which is not among the sources.  The spec fixes the block size B = 64,
    the native digest size 32, the maximal key size 32 and the 8-byte width
    of the salt and personalization fields. *)
Definition BLAKE2S_BLOCKBYTES : Z := 64.
Definition BLAKE2S_OUTBYTES : Z := 32.
Definition BLAKE2S_KEYBYTES : Z := 32.
Definition BLAKE2S_SALTBYTES : Z := 8.
Definition BLAKE2S_PERSONALBYTES : Z := 8.

(** ** Integers and memory *)

(** Conversion of an argument to a [uint8_t] parameter. *)
Definition uint8 (x : Z) : Z := x mod 2 ^ 8.

(** Conversion of an argument to a [uint64_t] parameter. *)
Definition uint64 (x : Z) : Z := x mod 2 ^ 64.

(** A pointer to constant bytes is the byte found at each offset from it.
    Offsets past the object the pointer was obtained from designate whatever
    the memory holds there. *)
Definition ptr : Type := Z -> byte.

(** [ErlNifBinary]: the two members the code reads. *)
Record ErlNifBinary : Type := mkBinary { size : Z; data : ptr }.

(** The [len] bytes found at [p + off]. *)
Definition load (p : ptr) (off len : Z) : list byte :=
  map (fun k => p (off + Z.of_nat k)) (seq 0 (Z.to_nat len)).

(** [memset(dst, c, n)] on a local byte array. *)
Definition memset (dst : list byte) (c : byte) (n : Z) : list byte :=
  replicate (Z.to_nat n) c ++ drop (Z.to_nat n) dst.

(** [memcpy(dst, src, n)] from a pointer into a local byte array. *)
Definition memcpy (dst : list byte) (src : ptr) (n : Z) : list byte :=
  load src 0 n ++ drop (Z.to_nat n) dst.

(** Copy of [n] produced bytes to the start of a local byte array. *)
Definition write_bytes (dst : list byte) (bytes : list byte) (n : Z) : list byte :=
  take (Z.to_nat n) bytes ++ drop (Z.to_nat n) dst.

(** ** The BLAKE2s parameter block and state *)

(** [blake2s_param], with the members the two init helpers assign.
    [leaf_length] is a 32-bit and [node_offset] a 48-bit little-endian
    integer; both are kept as the integer they encode. *)
Record blake2s_param : Type := mkParam {
  digest_length : Z;
  key_length : Z;
  fanout : Z;
  depth : Z;
  leaf_length : Z;
  node_offset : Z;
  node_depth : Z;
  inner_length : Z;
  salt : list byte;
  personal : list byte
}.

(** [store32] and [store48] of blake2-impl.h keep the low 32 (48) bits. *)
Definition store32 (w : Z) : Z := w mod 2 ^ 32.
Definition store48 (w : Z) : Z := w mod 2 ^ 48.

(** Modelled from the spec: [blake2s_state] is declared in blake2.h, which
    is not among the sources.  [blake2sp_hash] writes its [last_node] member
    and otherwise only hands the state to [blake2s_init_param],
    [blake2s_update] and [blake2s_final].  The rest of the state is kept as
    what determines it: the parameter block it was initialised from and the
    buffers absorbed since, one entry per [blake2s_update] call, in order. *)
Record blake2s_state : Type := mkState {
  init_param : blake2s_param;
  last_node : Z;
  absorbed : list (list byte)
}.

(** ** The objects of one call *)

(** The state a [blake2s_state *] argument designates: [S[i]] or [FS]. *)
Inductive sref : Type :=
| S_ (i : Z)
| FS_.

(** Calls into the BLAKE2s library, with their arguments.  For
    [blake2s_final] the state the pointer designates at the time of the call
    is part of the event. *)
Inductive event : Type :=
| ev_init_param (r : sref) (P : blake2s_param)
| ev_update (r : sref) (bytes : list byte)
| ev_final (r : sref) (s : blake2s_state) (outlen : Z)
| ev_secure_zero_memory (n : Z).

(** The locals of [blake2sp_hash].  An object that has not been written yet
    is [None]. *)
Record machine : Type := mkMachine {
  m_S : list (option blake2s_state);
  m_FS : option blake2s_state;
  m_hash : list (option (list byte));
  m_block : option (list byte);
  m_out : list byte;
  m_trace : list event
}.

(** The locals on entry: [out] is the only initialised one. *)
Definition machine0 : machine :=
  {| m_S := replicate (Z.to_nat PARALLELISM_DEGREE) None;
     m_FS := None;
     m_hash := replicate (Z.to_nat PARALLELISM_DEGREE) None;
     m_block := None;
     m_out := replicate (Z.to_nat BLAKE2S_OUTBYTES) x00;
     m_trace := [] |}.

Definition get_state (r : sref) (m : machine) : option blake2s_state :=
  match r with
  | S_ i => mjoin (m_S m !! Z.to_nat i)
  | FS_ => m_FS m
  end.

Definition set_state (r : sref) (s : blake2s_state) (m : machine) : machine :=
  match r with
  | S_ i =>
      {| m_S := <[Z.to_nat i := Some s]> (m_S m); m_FS := m_FS m;
         m_hash := m_hash m; m_block := m_block m; m_out := m_out m;
         m_trace := m_trace m |}
  | FS_ =>
      {| m_S := m_S m; m_FS := Some s;
         m_hash := m_hash m; m_block := m_block m; m_out := m_out m;
         m_trace := m_trace m |}
  end.

Definition set_hash (i : Z) (h : list byte) (m : machine) : machine :=
  {| m_S := m_S m; m_FS := m_FS m;
     m_hash := <[Z.to_nat i := Some h]> (m_hash m);
     m_block := m_block m; m_out := m_out m; m_trace := m_trace m |}.

Definition set_block (b : list byte) (m : machine) : machine :=
  {| m_S := m_S m; m_FS := m_FS m; m_hash := m_hash m;
     m_block := Some b; m_out := m_out m; m_trace := m_trace m |}.

Definition set_out (o : list byte) (m : machine) : machine :=
  {| m_S := m_S m; m_FS := m_FS m; m_hash := m_hash m;
     m_block := m_block m; m_out := o; m_trace := m_trace m |}.

Definition record (e : event) (m : machine) : machine :=
  {| m_S := m_S m; m_FS := m_FS m; m_hash := m_hash m;
     m_block := m_block m; m_out := m_out m; m_trace := m_trace m ++ [e] |}.

(** ** Statements *)

(** What [blake2sp_hash] hands back: the integer of [return -1], or the list
    of unsigned integers built by [enif_make_list_from_array]. *)
Inductive ERL_NIF_TERM : Type :=
| term_int (v : Z)
| term_list (l : list Z).

(** A statement falls through with a value, returns from the function, or
    faults (an object read before it was written, or a loop out of fuel). *)
Inductive outcome (A : Type) : Type :=
| Next (a : A)
| Return (t : ERL_NIF_TERM)
| Fault.
Arguments Next {A} a.
Arguments Return {A} t.
Arguments Fault {A}.

Definition M (A : Type) : Type := machine -> outcome A * machine.

Definition ret {A : Type} (a : A) : M A := fun m => (Next a, m).

Definition bind {A B : Type} (c : M A) (k : A -> M B) : M B :=
  fun m =>
    match c m with
    | (Next a, m') => k a m'
    | (Return t, m') => (Return t, m')
    | (Fault, m') => (Fault, m')
    end.

Definition return_ {A : Type} (t : ERL_NIF_TERM) : M A := fun m => (Return t, m).
Definition fault {A : Type} : M A := fun m => (Fault, m).
Definition gets {A : Type} (f : machine -> A) : M A := fun m => (Next (f m), m).
Definition modify (f : machine -> machine) : M unit := fun m => (Next tt, f m).

Notation "x <- c1 ;; c2" := (bind c1 (fun x => c2))
  (at level 100, c1 at next level, right associativity).
Notation "c1 ;; c2" := (bind c1 (fun _ => c2))
  (at level 100, right associativity).

(** Read of an object that must have been written. *)
Definition read {A : Type} (f : machine -> option A) : M A :=
  fun m => match f m with Some a => (Next a, m) | None => (Fault, m) end.

(** [for (size_t i = lo; i < hi; ++i) body]. *)
Fixpoint for_from (n : nat) (i : Z) (body : Z -> M unit) : M unit :=
  match n with
  | O => ret tt
  | Datatypes.S n' => body i ;; for_from n' (i + 1) body
  end.

Definition for_ (lo hi : Z) (body : Z -> M unit) : M unit :=
  for_from (Z.to_nat (hi - lo)) lo body.

(** ** Concrete calls *)

(** A binary holding the bytes [l]; every byte past its end reads [rest]. *)
Definition bin_of (l : list byte) (rest : byte) : ErlNifBinary :=
  {| size := Z.of_nat (length l); data := fun k => nth (Z.to_nat k) l rest |}.

(** A stand-in for the compression function, for running calls: init accepts
    every block, and the hash bytes count what the state has seen. *)
Definition toy_status (P : blake2s_param) : Z := 0.

Definition toy_hash (s : blake2s_state) (k : nat) : byte :=
  let n := (length (concat (absorbed s)) + k + Z.to_nat (last_node s)
            + Z.to_nat (node_offset (init_param s)))%nat in
  match Byte.of_N (N.of_nat n mod 256) with
  | Some b => b
  | None => x00
  end.

(** Stack memory that holds bytes 0xaa where nothing has been written. *)
Definition toy_stack (k : nat) : byte := xaa.

(** An input of one full stride of eight blocks and 88 more bytes, a 2-byte
    key, an 8-byte salt and no personalization. *)
Definition input600 : ErlNifBinary := bin_of (replicate 600 x01) xff.
Definition key2 : ErlNifBinary := bin_of [x0a; x0b] xff.
Definition no_key : ErlNifBinary := bin_of [] xff.
Definition salt8 : ErlNifBinary :=
  bin_of [x01; x02; x03; x04; x05; x06; x07; x08] xff.
Definition no_personal : ErlNifBinary := bin_of [] xff.

(** A 3-byte salt; the memory after it holds bytes 0xff. *)
Definition salt3 : ErlNifBinary := bin_of [x01; x02; x03] xff.

(** A library that rejects the block of leaf 3, and one that rejects the
    root block. *)
Definition reject_leaf3 (P : blake2s_param) : Z :=
  if (node_depth P =? 0) && (node_offset P =? 3) then -1 else 0.

Definition reject_root (P : blake2s_param) : Z :=
  if node_depth P =? 1 then -1 else 0.

(** The same two bytes in front of different memory. *)
Definition two_bytes_a : ErlNifBinary := bin_of [x01; x02] xff.
Definition two_bytes_b : ErlNifBinary := bin_of [x01; x02] x00.

(** A salt of 256 bytes, and one of 9 bytes that starts like [salt8]. *)
Definition salt256 : ErlNifBinary := bin_of (replicate 256 x07) xff.
Definition salt9 : ErlNifBinary :=
  bin_of [x01; x02; x03; x04; x05; x06; x07; x08; x09] xff.

(** Locals in which the eight leaf states are freshly initialised. *)
Definition ready_machine : machine :=
  let P := {| digest_length := 32; key_length := 0; fanout := 8; depth := 2;
              leaf_length := 0; node_offset := 0; node_depth := 0;
              inner_length := 32; salt := replicate 8 x00;
              personal := replicate 8 x00 |} in
  {| m_S := replicate 8 (Some {| init_param := P; last_node := 0; absorbed := [] |});
     m_FS := None;
     m_hash := replicate 8 None;
     m_block := None;
     m_out := replicate 32 x00;
     m_trace := [] |}.

(** ** The BLAKE2s library, as [blake2sp.c] calls it *)

Section Blake2sp.

(** Modelled from the spec: [blake2s_init_param], [blake2s_update] and
    [blake2s_final] are defined in the BLAKE2s sources, which are not among
    the sources here.  Per the interface of the spec, init builds a fresh
    state (last-node flag clear, nothing absorbed) from a parameter block
    and may report failure, update absorbs bytes in call order, and final
    yields as many bytes as it is asked for.  What the compression function
    computes is left open: [blake2s_init_param_status] is the integer init
    returns for a block and [blake2s_hash_byte s k] is byte [k] of the hash
    final computes from state [s]. *)
Variable blake2s_init_param_status : blake2s_param -> Z.
Variable blake2s_hash_byte : blake2s_state -> nat -> byte.

(** A local array that is declared without an initialiser ([P], [block],
    the rows of [hash]) holds indeterminate bytes until the code writes
    them: [indeterminate k] is the unknown byte at index [k]. *)
Variable indeterminate : nat -> byte.

Definition array (n : Z) : list byte := map indeterminate (seq 0 (Z.to_nat n)).

Definition blake2s_init_param (r : sref) (P : blake2s_param) : M Z :=
  modify (record (ev_init_param r P)) ;;
  modify (set_state r {| init_param := P; last_node := 0; absorbed := [] |}) ;;
  ret (blake2s_init_param_status P).

Definition blake2s_update (r : sref) (bytes : list byte) : M unit :=
  modify (record (ev_update r bytes)) ;;
  s <- read (get_state r) ;;
  modify (set_state r {| init_param := init_param s; last_node := last_node s;
                         absorbed := absorbed s ++ [bytes] |}).

Definition final_bytes (s : blake2s_state) (outlen : Z) : list byte :=
  map (blake2s_hash_byte s) (seq 0 (Z.to_nat outlen)).

Definition blake2s_final (r : sref) (outlen : Z) : M (list byte) :=
  s <- read (get_state r) ;;
  modify (record (ev_final r s outlen)) ;;
  ret (final_bytes s outlen).

(** [secure_zero_memory(block, n)] of blake2-impl.h. *)
Definition secure_zero_memory_block (n : Z) : M unit :=
  modify (record (ev_secure_zero_memory n)) ;;
  b <- read m_block ;;
  modify (set_block (memset b x00 n)).

(** [S->last_node = 1]. *)
Definition mark_last_node (r : sref) : M unit :=
  s <- read (get_state r) ;;
  modify (set_state r {| init_param := init_param s; last_node := 1;
                         absorbed := absorbed s |}).

(** ** [blake2sp_init_leaf] and [blake2sp_init_root] *)

(** Lines 33-51: the block [P] built by [blake2sp_init_leaf]. *)
Definition leaf_param (outlen keylen offset : Z) (salt_ personal_ : ptr)
    (saltlen personallen : Z) : blake2s_param :=
  {| digest_length := outlen;
     key_length := keylen;
     fanout := PARALLELISM_DEGREE;
     depth := 2;
     leaf_length := store32 0;
     node_offset := store48 offset;
     node_depth := 0;
     inner_length := BLAKE2S_OUTBYTES;
     salt :=
       if negb (saltlen =? 0)
       then memcpy (array BLAKE2S_SALTBYTES) salt_ BLAKE2S_SALTBYTES
       else memset (array BLAKE2S_SALTBYTES) x00 BLAKE2S_SALTBYTES;
     personal :=
       if negb (personallen =? 0)
       then memcpy (array BLAKE2S_PERSONALBYTES) personal_ BLAKE2S_PERSONALBYTES
       else memset (array BLAKE2S_PERSONALBYTES) x00 BLAKE2S_PERSONALBYTES |}.

Definition blake2sp_init_leaf (r : sref) (outlen keylen offset : Z)
    (salt_ personal_ : ptr) (saltlen personallen : Z) : M Z :=
  blake2s_init_param r
    (leaf_param outlen keylen offset salt_ personal_ saltlen personallen).

(** Lines 58-76: the block [P] built by [blake2sp_init_root]. *)
Definition root_param (outlen keylen : Z) (salt_ personal_ : ptr)
    (saltlen personallen : Z) : blake2s_param :=
  {| digest_length := outlen;
     key_length := keylen;
     fanout := PARALLELISM_DEGREE;
     depth := 2;
     leaf_length := store32 0;
     node_offset := store48 0;
     node_depth := 1;
     inner_length := BLAKE2S_OUTBYTES;
     salt :=
       if negb (saltlen =? 0)
       then memcpy (array BLAKE2S_SALTBYTES) salt_ BLAKE2S_SALTBYTES
       else memset (array BLAKE2S_SALTBYTES) x00 BLAKE2S_SALTBYTES;
     personal :=
       if negb (personallen =? 0)
       then memcpy (array BLAKE2S_PERSONALBYTES) personal_ BLAKE2S_PERSONALBYTES
       else memset (array BLAKE2S_PERSONALBYTES) x00 BLAKE2S_PERSONALBYTES |}.

Definition blake2sp_init_root (r : sref) (outlen keylen : Z)
    (salt_ personal_ : ptr) (saltlen personallen : Z) : M Z :=
  blake2s_init_param r
    (root_param outlen keylen salt_ personal_ saltlen personallen).

(** ** [blake2sp_hash] *)

(** Lines 134-139: the [while] loop of one lane.  [in__] is kept as its
    offset from [input.data].  The result is the pair of [in__] and
    [inlen__] when the loop is left. *)
Fixpoint lane_while (fuel : nat) (input : ErlNifBinary) (id__ in__ inlen__ : Z)
    : M (Z * Z) :=
  if inlen__ >=? PARALLELISM_DEGREE * BLAKE2S_BLOCKBYTES then
    match fuel with
    | O => fault
    | S fuel' =>
        blake2s_update (S_ id__) (load (data input) in__ BLAKE2S_BLOCKBYTES) ;;
        lane_while fuel' input id__
          (in__ + PARALLELISM_DEGREE * BLAKE2S_BLOCKBYTES)
          (inlen__ - PARALLELISM_DEGREE * BLAKE2S_BLOCKBYTES)
    end
  else ret (in__, inlen__).

(** Lines 126-149: the body run for lane [id__].  Without OpenMP the body
    is the body of a [for] loop over the lanes; that is the build embedded
    here.  A lane touches no object but [S[id__]] and [hash[id__]]. *)
Definition lane (input : ErlNifBinary) (id__ : Z) : M unit :=
  let inlen__ := size input in
  let in__ := 0 + id__ * BLAKE2S_BLOCKBYTES in
  p <- lane_while (Z.to_nat (size input)) input id__ in__ inlen__ ;;
  let in__ := fst p in
  let inlen__ := snd p in
  (if inlen__ >? id__ * BLAKE2S_BLOCKBYTES then
     let left := inlen__ - id__ * BLAKE2S_BLOCKBYTES in
     let len := if left <=? BLAKE2S_BLOCKBYTES then left else BLAKE2S_BLOCKBYTES in
     blake2s_update (S_ id__) (load (data input) in__ len)
   else ret tt) ;;
  h <- blake2s_final (S_ id__) BLAKE2S_OUTBYTES ;;
  modify (set_hash id__ (write_bytes (array BLAKE2S_OUTBYTES) h BLAKE2S_OUTBYTES)).

(** [enif_make_uint(env, out[i])]. *)
Definition enif_make_uint (b : byte) : Z := Z.of_N (Byte.to_N b).

(** Lines 98-165, after the five arguments have been decoded. *)
Definition blake2sp_hash (input key : ErlNifBinary) (outlen : Z)
    (salt_ personal_ : ErlNifBinary) : M unit :=
  (if (outlen =? 0) || (outlen >? BLAKE2S_OUTBYTES)
   then return_ (term_int (-1)) else ret tt) ;;
  (if size key >? BLAKE2S_KEYBYTES
   then return_ (term_int (-1)) else ret tt) ;;
  for_ 0 PARALLELISM_DEGREE (fun i =>
    st <- blake2sp_init_leaf (S_ i) (uint8 outlen) (uint8 (size key)) (uint64 i)
            (data salt_) (data personal_)
            (uint8 (size salt_)) (uint8 (size personal_)) ;;
    if st <? 0 then return_ (term_int (-1)) else ret tt) ;;
  mark_last_node (S_ (PARALLELISM_DEGREE - 1)) ;;
  (if size key >? 0 then
     modify (set_block (memset (array BLAKE2S_BLOCKBYTES) x00 BLAKE2S_BLOCKBYTES)) ;;
     b <- read m_block ;;
     modify (set_block (memcpy b (data key) (size key))) ;;
     for_ 0 PARALLELISM_DEGREE (fun i =>
       b <- read m_block ;;
       blake2s_update (S_ i) (take (Z.to_nat BLAKE2S_BLOCKBYTES) b)) ;;
     secure_zero_memory_block BLAKE2S_BLOCKBYTES
   else ret tt) ;;
  for_ 0 PARALLELISM_DEGREE (lane input) ;;
  st <- blake2sp_init_root FS_ (uint8 outlen) (uint8 (size key))
          (data salt_) (data personal_)
          (uint8 (size salt_)) (uint8 (size personal_)) ;;
  (if st <? 0 then return_ (term_int (-1)) else ret tt) ;;
  mark_last_node FS_ ;;
  for_ 0 PARALLELISM_DEGREE (fun i =>
    h <- read (fun m => mjoin (m_hash m !! Z.to_nat i)) ;;
    blake2s_update FS_ (take (Z.to_nat BLAKE2S_OUTBYTES) h)) ;;
  d <- blake2s_final FS_ outlen ;;
  o <- gets m_out ;;
  modify (set_out (write_bytes o d outlen)) ;;
  o <- gets m_out ;;
  return_ (term_list (map enif_make_uint (take (Z.to_nat outlen) o))).

(** One call: the locals start as [machine0]; the result is what the call
    hands back and the locals and library calls it leaves behind. *)
Definition run (input key : ErlNifBinary) (outlen : Z)
    (salt_ personal_ : ErlNifBinary) : outcome unit * machine :=
  blake2sp_hash input key outlen salt_ personal_ machine0.

(** ** The partition of the input, in the words of the spec *)

(** The (offset, length) pairs lane [i] owns in an input of [L] bytes: the
    full blocks at [i*B], [i*B + N*B], [i*B + 2*N*B], ... while at least
    [N*B] bytes remain, then, with [R = L mod (N*B)], one tail of
    [min(B, R - i*B)] bytes iff [R > i*B]. *)
Definition lane_slices (L i : Z) : list (Z * Z) :=
  let B := BLAKE2S_BLOCKBYTES in
  let N := PARALLELISM_DEGREE in
  let R := L mod (N * B) in
  map (fun j => (i * B + Z.of_nat j * (N * B), B)) (seq 0 (Z.to_nat (L / (N * B))))
  ++ (if R >? i * B then [((L - R) + i * B, Z.min B (R - i * B))] else []).

(** The bytes of those slices. *)
Definition lane_chunks (input : ErlNifBinary) (i : Z) : list (list byte) :=
  map (fun sl => load (data input) (fst sl) (snd sl)) (lane_slices (size input) i).

(** The key block: the key bytes left-justified, zero-padded to a block. *)
Definition key_block (key : ErlNifBinary) : list byte :=
  load (data key) 0 (size key)
  ++ replicate (Z.to_nat (BLAKE2S_BLOCKBYTES - size key)) x00.

(** ** The outcome of a call, in closed form *)

Definition with_absorbed (s : blake2s_state) (chunks : list (list byte)) : blake2s_state :=
  {| init_param := init_param s; last_node := last_node s;
     absorbed := absorbed s ++ chunks |}.

(** The machine after state [r] absorbed [chunks] in as many updates. *)
Definition absorb_all (r : sref) (chunks : list (list byte)) (m : machine) : machine :=
  match get_state r m with
  | Some s =>
      set_state r (with_absorbed s chunks)
        {| m_S := m_S m; m_FS := m_FS m; m_hash := m_hash m;
           m_block := m_block m; m_out := m_out m;
           m_trace := m_trace m ++ map (ev_update r) chunks |}
  | None => m
  end.

(** Two parameter blocks that agree on every member but node_offset. *)
Definition same_but_node_offset (P Q : blake2s_param) : Prop :=
  digest_length P = digest_length Q /\ key_length P = key_length Q /\
  fanout P = fanout Q /\ depth P = depth Q /\
  leaf_length P = leaf_length Q /\ node_depth P = node_depth Q /\
  inner_length P = inner_length Q /\ salt P = salt Q /\
  personal P = personal Q.

(** The parameter blocks handed to [blake2s_init_param], in call order. *)
Definition init_call (e : event) : option (sref * blake2s_param) :=
  match e with ev_init_param r P => Some (r, P) | _ => None end.
Definition init_blocks (tr : list event) : list (sref * blake2s_param) :=
  omap init_call tr.

(** The states handed to [blake2s_final] with the length asked for, in call
    order. *)
Definition final_call (e : event) : option (sref * blake2s_state * Z) :=
  match e with ev_final r s n => Some (r, s, n) | _ => None end.
Definition finalized (tr : list event) : list (sref * blake2s_state * Z) :=
  omap final_call tr.

Section Call.

Variables input key : ErlNifBinary.
Variable outlen : Z.
Variables salt_ personal_ : ErlNifBinary.

Definition lanes : list Z := [0; 1; 2; 3; 4; 5; 6; 7].

Definition leaf_block (i : Z) : blake2s_param :=
  leaf_param (uint8 outlen) (uint8 (size key)) (uint64 i)
    (data salt_) (data personal_) (uint8 (size salt_)) (uint8 (size personal_)).

Definition root_block : blake2s_param :=
  root_param (uint8 outlen) (uint8 (size key))
    (data salt_) (data personal_) (uint8 (size salt_)) (uint8 (size personal_)).

Definition key_chunks : list (list byte) :=
  if size key >? 0 then [key_block key] else [].

(** Leaf state [i] when it is finalized. *)
Definition leaf_state (i : Z) : blake2s_state :=
  {| init_param := leaf_block i;
     last_node := if i =? PARALLELISM_DEGREE - 1 then 1 else 0;
     absorbed := key_chunks ++ lane_chunks input i |}.

Definition lane_digest (i : Z) : list byte :=
  final_bytes (leaf_state i) BLAKE2S_OUTBYTES.

(** The root state when it is finalized. *)
Definition root_state : blake2s_state :=
  {| init_param := root_block; last_node := 1;
     absorbed := map lane_digest lanes |}.

Definition digest : list byte := final_bytes root_state outlen.

Definition lane_events (i : Z) : list event :=
  map (ev_update (S_ i)) (lane_chunks input i)
  ++ [ev_final (S_ i) (leaf_state i) BLAKE2S_OUTBYTES].

Definition key_events : list event :=
  if size key >? 0
  then map (fun i => ev_update (S_ i) (key_block key)) lanes
       ++ [ev_secure_zero_memory BLAKE2S_BLOCKBYTES]
  else [].

Definition final_machine : machine :=
  {| m_S := map (fun i => Some (leaf_state i)) lanes;
     m_FS := Some root_state;
     m_hash := map (fun i => Some (lane_digest i)) lanes;
     m_block :=
       if size key >? 0 then Some (replicate (Z.to_nat BLAKE2S_BLOCKBYTES) x00)
       else None;
     m_out := digest ++ replicate (Z.to_nat (BLAKE2S_OUTBYTES - outlen)) x00;
     m_trace :=
       map (fun i => ev_init_param (S_ i) (leaf_block i)) lanes
       ++ key_events
       ++ concat (map lane_events lanes)
       ++ [ev_init_param FS_ root_block]
       ++ map (fun i => ev_update FS_ (lane_digest i)) lanes
       ++ [ev_final FS_ root_state outlen] |}.

End Call.

(** A call is well formed when the sizes are sizes and the configuration is
    within the bounds of BLAKE2s. *)
Definition valid_call (input key : ErlNifBinary) (outlen : Z) : Prop :=
  0 <= size input /\ 0 <= size key <= BLAKE2S_KEYBYTES /\
  1 <= outlen <= BLAKE2S_OUTBYTES.

(** Modelled from the spec: [blake2s_init_param] rejects malformed blocks
    only; a block whose digest and key lengths are within the bounds of
    BLAKE2s is accepted. *)
Definition init_accepts_bounded : Prop :=
  forall P : blake2s_param,
    1 <= digest_length P <= BLAKE2S_OUTBYTES ->
    0 <= key_length P <= BLAKE2S_KEYBYTES ->
    0 <= blake2s_init_param_status P.

(** The full blocks a lane absorbs in its [while] loop. *)
Definition loop_chunks (input : ErlNifBinary) (in__ inlen__ : Z) : list (list byte) :=
  map (fun j => load (data input)
                  (in__ + Z.of_nat j * (PARALLELISM_DEGREE * BLAKE2S_BLOCKBYTES))
                  BLAKE2S_BLOCKBYTES)
      (seq 0 (Z.to_nat (inlen__ / (PARALLELISM_DEGREE * BLAKE2S_BLOCKBYTES)))).

(** The machine after lane [id__] ran: its state absorbed the lane's chunks
    and was finalized into [hash[id__]]. *)
Definition after_lane (input : ErlNifBinary) (id__ : Z) (s : blake2s_state)
    (m : machine) : machine :=
  set_hash id__ (final_bytes (with_absorbed s (lane_chunks input id__)) BLAKE2S_OUTBYTES)
    (record (ev_final (S_ id__) (with_absorbed s (lane_chunks input id__))
               BLAKE2S_OUTBYTES)
       (absorb_all (S_ id__) (lane_chunks input id__) m)).

(** A statement that leaves every call already in the trace in place. *)
Definition grows {A : Type} (c : M A) : Prop :=
  forall m, exists l, m_trace (snd (c m)) = m_trace m ++ l.

(** A property of what a statement leaves behind on a machine. *)
Definition holds {A : Type} (Q : outcome A * machine -> Prop)
    (x : outcome A * machine) : Prop := Q x.

(** What is left of a call once a leaf block up to lane [i] was rejected. *)
Definition aborted_in_leaf_init (i : Z) (x : outcome unit * machine) : Prop :=
  fst x = Return (term_int (-1)) /\
  Forall (fun e => exists j P, e = ev_init_param (S_ j) P /\ 0 <= j <= i)
         (m_trace (snd x)) /\
  m_block (snd x) = None /\
  m_hash (snd x) = replicate 8 None /\
  m_FS (snd x) = None /\
  m_out (snd x) = replicate 32 x00.

(** The locals and the trace when the root block is rejected: the lanes
    have run, [FS] was handed to [blake2s_init_param] and nothing else. *)
Definition root_rejected_machine (input key : ErlNifBinary) (outlen : Z)
    (salt_ personal_ : ErlNifBinary) : machine :=
  {| m_S := map (fun i => Some (leaf_state input key outlen salt_ personal_ i)) lanes;
     m_FS := Some {| init_param := root_block key outlen salt_ personal_;
                     last_node := 0; absorbed := [] |};
     m_hash := map (fun i => Some (lane_digest input key outlen salt_ personal_ i)) lanes;
     m_block :=
       if size key >? 0 then Some (replicate (Z.to_nat BLAKE2S_BLOCKBYTES) x00)
       else None;
     m_out := replicate (Z.to_nat BLAKE2S_OUTBYTES) x00;
     m_trace :=
       map (fun i => ev_init_param (S_ i) (leaf_block key outlen salt_ personal_ i)) lanes
       ++ key_events key
       ++ concat (map (lane_events input key outlen salt_ personal_) lanes)
       ++ [ev_init_param FS_ (root_block key outlen salt_ personal_)] |}.

(** The library accepts the eight leaf blocks of a call. *)
Definition leaves_accepted (key : ErlNifBinary) (outlen : Z)
    (salt_ personal_ : ErlNifBinary) : Prop :=
  forall i, 0 <= i <= 7 ->
    0 <= blake2s_init_param_status (leaf_block key outlen salt_ personal_ i).

(** Two binaries of the same size holding the same bytes; what follows them
    in memory may differ. *)
Definition same_bytes (b1 b2 : ErlNifBinary) : Prop :=
  size b1 = size b2 /\ forall k, 0 <= k < size b1 -> data b1 k = data b2 k.

(** The lane bodies of lines 126-149 run one after the other in a given
    order; the [for] loop of the build without OpenMP runs them in the order
    0, 1, ..., 7. *)
Definition run_lanes (input : ErlNifBinary) (order : list Z) : M unit :=
  fold_right (fun id__ rest => lane input id__ ;; rest) (ret tt) order.

(** The state an event of the trace is about, if any. *)
Definition event_state (e : event) : option sref :=
  match e with
  | ev_init_param r _ => Some r
  | ev_update r _ => Some r
  | ev_final r _ _ => Some r
  | ev_secure_zero_memory _ => None
  end.

(** The sum of a list of integers. *)
Definition Zsum (l : list Z) : Z := fold_right Z.add 0 l.

(** A copy of [n] bytes from the start of binary [b], made when the
    [uint8_t] length of [b] is not zero, stays inside the binary. *)
Definition copy_within (b : ErlNifBinary) (n : Z) : Prop :=
  uint8 (size b) = 0 \/ n <= size b.

(** ** Evaluation lemmas *)

Lemma get_state_record r e m : get_state r (record e m) = get_state r m.
Proof. destruct r; reflexivity. Qed.

Lemma get_state_set_state r s s0 m :
  get_state r m = Some s0 -> get_state r (set_state r s m) = Some s.
Proof.
  destruct r as [i|]; simpl; [|reflexivity].
  intros H. destruct (m_S m !! Z.to_nat i) as [o|] eqn:E; [|discriminate].
  rewrite list_lookup_insert_eq; [reflexivity|].
  eapply lookup_lt_Some; eauto.
Qed.

Lemma absorb_all_nil r m s : get_state r m = Some s -> absorb_all r [] m = m.
Proof.
  intros H. unfold absorb_all, with_absorbed. rewrite H. simpl map.
  rewrite !app_nil_r. destruct m as [mS mFS mh mb mo mt], r as [i|]; simpl in *.
  - f_equal. apply list_insert_id.
    destruct (mS !! Z.to_nat i) as [[s'|]|]; simpl in H; try discriminate.
    injection H as <-. by destruct s'.
  - f_equal. rewrite H. by destruct s.
Qed.

Lemma get_state_absorb_all r chunks m s :
  get_state r m = Some s ->
  get_state r (absorb_all r chunks m) = Some (with_absorbed s chunks).
Proof.
  intros H. unfold absorb_all. rewrite H.
  eapply get_state_set_state. destruct r; exact H.
Qed.

Lemma absorb_all_app r c1 c2 m s :
  get_state r m = Some s ->
  absorb_all r c2 (absorb_all r c1 m) = absorb_all r (c1 ++ c2) m.
Proof.
  intros H. unfold absorb_all at 1.
  rewrite (get_state_absorb_all _ _ _ _ H).
  unfold absorb_all. rewrite H.
  destruct r as [i|]; simpl;
    rewrite ?list_insert_insert_eq, map_app, <- !app_assoc;
    unfold with_absorbed; simpl; rewrite <- !app_assoc; reflexivity.
Qed.

Lemma blake2s_update_eval r bytes m s :
  get_state r m = Some s ->
  blake2s_update r bytes m = (Next tt, absorb_all r [bytes] m).
Proof.
  intros H. unfold blake2s_update, bind, modify, read.
  rewrite get_state_record, H. unfold absorb_all. rewrite H.
  destruct r; reflexivity.
Qed.

(** Linear arithmetic with the constants unfolded and quotients and
    remainders replaced by their defining equations. *)
Ltac arith :=
  unfold PARALLELISM_DEGREE, BLAKE2S_BLOCKBYTES, BLAKE2S_OUTBYTES,
    BLAKE2S_KEYBYTES, BLAKE2S_SALTBYTES, BLAKE2S_PERSONALBYTES in *;
  Z.div_mod_to_equations; lia.

Lemma length_final_bytes s n : length (final_bytes s n) = Z.to_nat n.
Proof. unfold final_bytes. by rewrite length_map, length_seq. Qed.

Lemma length_load p off n : length (load p off n) = Z.to_nat n.
Proof. unfold load. by rewrite length_map, length_seq. Qed.

Lemma loop_chunks_done input in__ inlen__ :
  0 <= inlen__ < PARALLELISM_DEGREE * BLAKE2S_BLOCKBYTES ->
  loop_chunks input in__ inlen__ = [].
Proof.
  intros H. unfold loop_chunks. rewrite Z.div_small by exact H. reflexivity.
Qed.

Lemma loop_chunks_step input in__ inlen__ :
  PARALLELISM_DEGREE * BLAKE2S_BLOCKBYTES <= inlen__ ->
  loop_chunks input in__ inlen__ =
  load (data input) in__ BLAKE2S_BLOCKBYTES
  :: loop_chunks input (in__ + PARALLELISM_DEGREE * BLAKE2S_BLOCKBYTES)
       (inlen__ - PARALLELISM_DEGREE * BLAKE2S_BLOCKBYTES).
Proof.
  unfold loop_chunks, PARALLELISM_DEGREE, BLAKE2S_BLOCKBYTES. intros H.
  replace (Z.to_nat (inlen__ / (8 * 64)))
    with (S (Z.to_nat ((inlen__ - 8 * 64) / (8 * 64)))) by arith.
  rewrite <- cons_seq, <- fmap_S_seq. simpl. rewrite Z.add_0_r. f_equal.
  change (S <$> ?l) with (map S l). rewrite map_map.
  apply map_ext. intros j. f_equal. lia.
Qed.

Lemma lane_while_eval fuel input id__ : forall in__ inlen__ m s,
  get_state (S_ id__) m = Some s ->
  0 <= inlen__ ->
  (Z.to_nat (inlen__ / (PARALLELISM_DEGREE * BLAKE2S_BLOCKBYTES)) <= fuel)%nat ->
  lane_while fuel input id__ in__ inlen__ m =
  (Next (in__ + PARALLELISM_DEGREE * BLAKE2S_BLOCKBYTES
                * (inlen__ / (PARALLELISM_DEGREE * BLAKE2S_BLOCKBYTES)),
         inlen__ mod (PARALLELISM_DEGREE * BLAKE2S_BLOCKBYTES)),
   absorb_all (S_ id__) (loop_chunks input in__ inlen__) m).
Proof.
  induction fuel as [|fuel IH]; intros in__ inlen__ m s Hs Hpos Hfuel;
    simpl lane_while;
    destruct (Z.geb_spec inlen__ (PARALLELISM_DEGREE * BLAKE2S_BLOCKBYTES)) as [Hge|Hlt].
  - exfalso. arith.
  - rewrite loop_chunks_done by arith. rewrite (absorb_all_nil _ _ _ Hs).
    rewrite Z.div_small, Z.mod_small by arith. unfold ret.
    rewrite Z.mul_0_r, Z.add_0_r. reflexivity.
  - unfold bind at 1. rewrite (blake2s_update_eval _ _ _ _ Hs).
    erewrite IH; cycle 1.
    + eapply get_state_absorb_all, Hs.
    + lia.
    + arith.
    + rewrite (absorb_all_app _ _ _ _ _ Hs), (loop_chunks_step _ _ _ Hge).
      simpl app. do 3 f_equal; arith.
  - rewrite loop_chunks_done by arith. rewrite (absorb_all_nil _ _ _ Hs).
    rewrite Z.div_small, Z.mod_small by arith. unfold ret.
    rewrite Z.mul_0_r, Z.add_0_r. reflexivity.
Qed.

(** The loop and the tail together absorb what the spec assigns the lane. *)
Lemma lane_chunks_split input i :
  0 <= size input ->
  lane_chunks input i =
  loop_chunks input (0 + i * BLAKE2S_BLOCKBYTES) (size input)
  ++ (let in__ := 0 + i * BLAKE2S_BLOCKBYTES
                  + PARALLELISM_DEGREE * BLAKE2S_BLOCKBYTES
                    * (size input / (PARALLELISM_DEGREE * BLAKE2S_BLOCKBYTES)) in
      let inlen__ := size input mod (PARALLELISM_DEGREE * BLAKE2S_BLOCKBYTES) in
      if inlen__ >? i * BLAKE2S_BLOCKBYTES then
        let left := inlen__ - i * BLAKE2S_BLOCKBYTES in
        let len := if left <=? BLAKE2S_BLOCKBYTES then left else BLAKE2S_BLOCKBYTES in
        [load (data input) in__ len]
      else []).
Proof.
  intros HL. unfold lane_chunks, lane_slices, loop_chunks.
  rewrite map_app, map_map. cbv zeta. f_equal.
  destruct (Z.gtb_spec (size input mod (PARALLELISM_DEGREE * BLAKE2S_BLOCKBYTES))
              (i * BLAKE2S_BLOCKBYTES)) as [Hgt|Hle]; [|reflexivity].
  simpl map. f_equal. f_equal.
  - arith.
  - destruct (Z.leb_spec (size input mod (PARALLELISM_DEGREE * BLAKE2S_BLOCKBYTES)
                          - i * BLAKE2S_BLOCKBYTES) BLAKE2S_BLOCKBYTES); lia.
Qed.

Lemma length_array n : length (array n) = Z.to_nat n.
Proof. unfold array. by rewrite length_map, length_seq. Qed.

Lemma write_full_array s :
  write_bytes (array BLAKE2S_OUTBYTES) (final_bytes s BLAKE2S_OUTBYTES) BLAKE2S_OUTBYTES
  = final_bytes s BLAKE2S_OUTBYTES.
Proof.
  unfold write_bytes.
  rewrite take_ge by (rewrite length_final_bytes; lia).
  rewrite drop_ge by (rewrite length_array; lia).
  apply app_nil_r.
Qed.

Lemma lane_eval input id__ m s :
  get_state (S_ id__) m = Some s ->
  0 <= size input ->
  lane input id__ m = (Next tt, after_lane input id__ s m).
Proof.
  intros Hs HL. unfold lane. cbv zeta. unfold bind at 1.
  rewrite (lane_while_eval _ _ _ _ _ _ _ Hs HL); cycle 1.
  { arith. }
  cbn [fst snd]. unfold after_lane. rewrite (lane_chunks_split _ _ HL). cbv zeta.
  set (pre := loop_chunks _ _ _).
  pose proof (get_state_absorb_all _ pre _ _ Hs) as Hs1.
  destruct (_ >? _).
  - unfold bind at 1. rewrite (blake2s_update_eval _ _ _ _ Hs1).
    rewrite (absorb_all_app _ _ _ _ _ Hs).
    pose proof (get_state_absorb_all _ (pre ++ [load (data input)
      (0 + id__ * BLAKE2S_BLOCKBYTES + PARALLELISM_DEGREE * BLAKE2S_BLOCKBYTES *
        (size input / (PARALLELISM_DEGREE * BLAKE2S_BLOCKBYTES)))
      (if size input `mod` (PARALLELISM_DEGREE * BLAKE2S_BLOCKBYTES) -
            id__ * BLAKE2S_BLOCKBYTES <=? BLAKE2S_BLOCKBYTES
       then size input `mod` (PARALLELISM_DEGREE * BLAKE2S_BLOCKBYTES) -
            id__ * BLAKE2S_BLOCKBYTES else BLAKE2S_BLOCKBYTES)]) _ _ Hs) as Hs2.
    unfold blake2s_final, bind, modify, read, ret.
    rewrite Hs2, write_full_array. reflexivity.
  - unfold bind at 1, ret at 1. rewrite app_nil_r.
    unfold blake2s_final, bind, modify, read, ret.
    rewrite Hs1, write_full_array. reflexivity.
Qed.

Lemma uint8_small x : 0 <= x <= 32 -> uint8 x = x.
Proof. intros H. unfold uint8. apply Z.mod_small. lia. Qed.

Lemma gtb_false x y : x <= y -> (x >? y) = false.
Proof. intros H. destruct (Z.gtb_spec x y); [lia | reflexivity]. Qed.

Lemma gtb_true x y : y < x -> (x >? y) = true.
Proof. intros H. destruct (Z.gtb_spec x y); [reflexivity | lia]. Qed.

(** Stepping through a sequence of statements, one statement at a time. *)

Lemma step_assoc {A B C} (c : M A) (f : A -> M B) (k : B -> M C) m r :
  bind c (fun a => bind (f a) k) m = r -> bind (bind c f) k m = r.
Proof. intros <-. unfold bind. destruct (c m) as [[a|t|] m']; reflexivity. Qed.

Lemma step_ret {A B} (a : A) (k : A -> M B) m r :
  k a m = r -> bind (ret a) k m = r.
Proof. intros <-. reflexivity. Qed.

Lemma step_modify {B} f (k : unit -> M B) m r :
  k tt (f m) = r -> bind (modify f) k m = r.
Proof. intros <-. reflexivity. Qed.

Lemma step_gets {A B} (f : machine -> A) (k : A -> M B) m r :
  k (f m) m = r -> bind (gets f) k m = r.
Proof. intros <-. reflexivity. Qed.

Lemma step_read {A B} (f : machine -> option A) (k : A -> M B) m a r :
  f m = Some a -> k a m = r -> bind (read f) k m = r.
Proof. intros H <-. unfold bind, read. rewrite H. reflexivity. Qed.

Lemma step_next {A B} (c : M A) (k : A -> M B) m a m' r :
  c m = (Next a, m') -> k a m' = r -> bind c k m = r.
Proof. intros H <-. unfold bind. rewrite H. reflexivity. Qed.

Lemma mark_last_node_eval r m s :
  get_state r m = Some s ->
  mark_last_node r m =
  (Next tt, set_state r {| init_param := init_param s; last_node := 1;
                           absorbed := absorbed s |} m).
Proof. intros H. unfold mark_last_node, bind, read, modify. rewrite H. reflexivity. Qed.

Lemma blake2s_final_eval r n m s :
  get_state r m = Some s ->
  blake2s_final r n m = (Next (final_bytes s n), record (ev_final r s n) m).
Proof.
  intros H. unfold blake2s_final, bind, read, modify, ret.
  rewrite H. reflexivity.
Qed.

Ltac norm_index :=
  change (0 + 1) with 1; change (1 + 1) with 2; change (2 + 1) with 3;
  change (3 + 1) with 4; change (4 + 1) with 5; change (5 + 1) with 6;
  change (6 + 1) with 7; change (8 - 1) with 7;
  change (Z.to_nat 0) with 0%nat; change (Z.to_nat 1) with 1%nat;
  change (Z.to_nat 2) with 2%nat; change (Z.to_nat 3) with 3%nat;
  change (Z.to_nat 4) with 4%nat; change (Z.to_nat 5) with 5%nat;
  change (Z.to_nat 6) with 6%nat; change (Z.to_nat 7) with 7%nat.

Ltac norm_machine :=
  cbv beta; norm_index;
  unfold after_lane, absorb_all, with_absorbed, record, set_state, get_state,
    set_block, set_out, set_hash;
  cbn [m_S m_FS m_hash m_block m_out m_trace init_param last_node absorbed
       lookup list_lookup insert list_insert mjoin option_join
       app map fst snd].

Ltac step HL :=
  lazymatch goal with
  | |- bind (bind _ _) _ _ = _ => apply step_assoc
  | |- bind (ret _) _ _ = _ => apply step_ret
  | |- bind (modify _) _ _ = _ => apply step_modify
  | |- bind (gets _) _ _ = _ => apply step_gets
  | |- bind (read _) _ _ = _ => eapply step_read; [reflexivity|]
  | |- bind (blake2sp_init_leaf _ _ _ _ _ _ _ _) _ _ = _ =>
      unfold blake2sp_init_leaf, blake2s_init_param
  | |- bind (blake2sp_init_root _ _ _ _ _ _ _) _ _ = _ =>
      unfold blake2sp_init_root, blake2s_init_param
  | |- bind (secure_zero_memory_block _) _ _ = _ =>
      unfold secure_zero_memory_block
  | |- bind (mark_last_node _) _ _ = _ =>
      eapply step_next; [eapply mark_last_node_eval; reflexivity|]
  | |- bind (blake2s_update _ _) _ _ = _ =>
      eapply step_next; [eapply blake2s_update_eval; reflexivity|]
  | |- bind (blake2s_final _ _) _ _ = _ =>
      eapply step_next; [eapply blake2s_final_eval; reflexivity|]
  | |- bind (lane _ _) _ _ = _ =>
      eapply step_next; [eapply lane_eval; [reflexivity|exact HL]|]
  end; norm_machine.

Lemma key_block_built key :
  0 <= size key <= BLAKE2S_KEYBYTES ->
  take (Z.to_nat BLAKE2S_BLOCKBYTES)
    (memcpy (memset (array BLAKE2S_BLOCKBYTES) x00 BLAKE2S_BLOCKBYTES)
       (data key) (size key))
  = key_block key.
Proof.
  intros H. unfold memcpy, memset, key_block.
  rewrite (drop_ge (array _)) by (rewrite length_array; lia).
  rewrite app_nil_r, drop_replicate.
  replace (Z.to_nat BLAKE2S_BLOCKBYTES - Z.to_nat (size key))%nat
    with (Z.to_nat (BLAKE2S_BLOCKBYTES - size key)) by arith.
  apply take_ge. rewrite length_app, length_load, length_replicate. arith.
Qed.

Lemma block_zeroed key :
  0 <= size key <= BLAKE2S_KEYBYTES ->
  memset (memcpy (memset (array BLAKE2S_BLOCKBYTES) x00 BLAKE2S_BLOCKBYTES)
            (data key) (size key)) x00 BLAKE2S_BLOCKBYTES
  = replicate (Z.to_nat BLAKE2S_BLOCKBYTES) x00.
Proof.
  intros H. unfold memset at 1. rewrite drop_ge; [apply app_nil_r|].
  unfold memcpy, memset.
  rewrite length_app, length_load, length_drop, length_app, length_replicate,
    length_drop, length_array.
  arith.
Qed.

Lemma take_final_bytes s n : take (Z.to_nat n) (final_bytes s n) = final_bytes s n.
Proof. apply take_ge. by rewrite length_final_bytes. Qed.

Lemma out_written s outlen :
  0 <= outlen <= BLAKE2S_OUTBYTES ->
  write_bytes (replicate (Z.to_nat BLAKE2S_OUTBYTES) x00) (final_bytes s outlen) outlen
  = final_bytes s outlen ++ replicate (Z.to_nat (BLAKE2S_OUTBYTES - outlen)) x00.
Proof.
  intros H. unfold write_bytes. rewrite take_final_bytes, drop_replicate.
  do 2 f_equal. arith.
Qed.

Lemma take_out s outlen rest :
  take (Z.to_nat outlen) (final_bytes s outlen ++ rest) = final_bytes s outlen.
Proof.
  rewrite take_app_le by (rewrite length_final_bytes; lia).
  apply take_final_bytes.
Qed.

Lemma run_eval input key outlen salt_ personal_ :
  valid_call input key outlen ->
  init_accepts_bounded ->
  run input key outlen salt_ personal_ =
  (Return (term_list (map enif_make_uint (digest input key outlen salt_ personal_))),
   final_machine input key outlen salt_ personal_).
Proof.
  intros (HL & Hk & Ho) Hacc.
  assert (Hleaf : forall i,
    (blake2s_init_param_status
       (leaf_param (uint8 outlen) (uint8 (size key)) i (data salt_) (data personal_)
          (uint8 (size salt_)) (uint8 (size personal_))) <? 0) = false).
  { intros i. apply Z.ltb_ge, Hacc; simpl; rewrite uint8_small; arith. }
  assert (Hroot :
    (blake2s_init_param_status
       (root_param (uint8 outlen) (uint8 (size key)) (data salt_) (data personal_)
          (uint8 (size salt_)) (uint8 (size personal_))) <? 0) = false).
  { apply Z.ltb_ge, Hacc; simpl; rewrite uint8_small; arith. }
  unfold run, blake2sp_hash.
  replace ((outlen =? 0) || (outlen >? BLAKE2S_OUTBYTES)) with false
    by (symmetry; apply orb_false_iff; split; [apply Z.eqb_neq | apply gtb_false]; arith).
  replace (size key >? BLAKE2S_KEYBYTES) with false
    by (symmetry; apply gtb_false; arith).
  change machine0 with
    {| m_S := [None; None; None; None; None; None; None; None];
       m_FS := None;
       m_hash := [None; None; None; None; None; None; None; None];
       m_block := None;
       m_out := replicate (Z.to_nat BLAKE2S_OUTBYTES) x00;
       m_trace := [] |}.
  change PARALLELISM_DEGREE with 8.
  unfold for_. change (Z.to_nat (8 - 0)) with 8%nat. cbn [for_from].
  norm_index.
  unfold final_machine, digest, lane_events, root_state, key_events, lane_digest,
    leaf_state, key_chunks, root_block, leaf_block, lanes.
  destruct (Z_lt_le_dec 0 (size key)) as [Hkey|Hkey].
  - rewrite (gtb_true _ _ Hkey).
    repeat (step HL || rewrite Hleaf || rewrite Hroot).
    rewrite !key_block_built, block_zeroed, !take_final_bytes by exact Hk.
    rewrite out_written, take_out by lia.
    unfold return_. do 2 f_equal.
    cbn [concat app]. repeat rewrite <- app_assoc. reflexivity.
  - rewrite (gtb_false _ _ Hkey).
    repeat (step HL || rewrite Hleaf || rewrite Hroot).
    rewrite !take_final_bytes.
    rewrite out_written, take_out by lia.
    unfold return_. do 2 f_equal.
    cbn [concat app]. repeat rewrite <- app_assoc. reflexivity.
Qed.

(** ** Reading the calls off a trace *)

Lemma init_blocks_app t1 t2 : init_blocks (t1 ++ t2) = init_blocks t1 ++ init_blocks t2.
Proof. apply omap_app. Qed.

Lemma finalized_app t1 t2 : finalized (t1 ++ t2) = finalized t1 ++ finalized t2.
Proof. apply omap_app. Qed.

Lemma init_blocks_updates r l : init_blocks (map (ev_update r) l) = [].
Proof. induction l as [|c l IH]; [reflexivity | exact IH]. Qed.

Lemma finalized_updates r l : finalized (map (ev_update r) l) = [].
Proof. induction l as [|c l IH]; [reflexivity | exact IH]. Qed.

Section Projections.

Variables input key : ErlNifBinary.
Variable outlen : Z.
Variables salt_ personal_ : ErlNifBinary.

Lemma init_blocks_key_events : init_blocks (key_events key) = [].
Proof. unfold key_events. destruct (size key >? 0); reflexivity. Qed.

Lemma finalized_key_events : finalized (key_events key) = [].
Proof. unfold key_events. destruct (size key >? 0); reflexivity. Qed.

Lemma init_blocks_final_machine :
  init_blocks (m_trace (final_machine input key outlen salt_ personal_)) =
  map (fun i => (S_ i, leaf_block key outlen salt_ personal_ i)) lanes
  ++ [(FS_, root_block key outlen salt_ personal_)].
Proof.
  unfold final_machine, lanes. cbn [m_trace map concat].
  unfold lane_events.
  rewrite !init_blocks_app, init_blocks_key_events, !init_blocks_updates.
  reflexivity.
Qed.

Lemma finalized_final_machine :
  finalized (m_trace (final_machine input key outlen salt_ personal_)) =
  map (fun i => (S_ i, leaf_state input key outlen salt_ personal_ i, BLAKE2S_OUTBYTES))
      lanes
  ++ [(FS_, root_state input key outlen salt_ personal_, outlen)].
Proof.
  unfold final_machine, lanes. cbn [m_trace map concat].
  unfold lane_events.
  rewrite !finalized_app, finalized_key_events, !finalized_updates.
  reflexivity.
Qed.

End Projections.

Lemma lanes_spec i : 0 <= i <= 7 <-> In i lanes.
Proof. unfold lanes. simpl. lia. Qed.

(** Every slice the spec assigns to a lane lies within the input. *)
Lemma lane_slices_in_bounds L i :
  0 <= L -> 0 <= i <= 7 ->
  Forall (fun sl => 0 <= fst sl /\ 0 < snd sl <= BLAKE2S_BLOCKBYTES
                    /\ fst sl + snd sl <= L)
         (lane_slices L i).
Proof.
  intros HL Hi. unfold lane_slices. cbv zeta. apply Forall_app. split.
  - apply Forall_forall. intros sl Hin. apply list_elem_of_In, in_map_iff in Hin.
    destruct Hin as (j & <- & Hj). apply in_seq in Hj. cbn [fst snd].
    assert (Z.of_nat j < L / (PARALLELISM_DEGREE * BLAKE2S_BLOCKBYTES)) by lia.
    arith.
  - destruct (Z.gtb_spec (L mod (PARALLELISM_DEGREE * BLAKE2S_BLOCKBYTES))
                (i * BLAKE2S_BLOCKBYTES)) as [Hgt|Hle]; [|constructor].
    constructor; [|constructor]. cbn [fst snd]. arith.
Qed.

Lemma in_finalized_leaf (f : Z -> blake2s_state) (c : Z) x y i s n :
  In (S_ i, s, n) (map (fun k => (S_ k, f k, c)) lanes ++ [(FS_, x, y)]) <->
  (0 <= i <= 7 /\ s = f i /\ n = c).
Proof.
  rewrite in_app_iff, in_map_iff, lanes_spec. split.
  - intros [(k & Hk & Hin)|[Hr|[]]]; [|discriminate].
    injection Hk as -> <- <-. auto.
  - intros (Hi & -> & ->). left. exists i. auto.
Qed.

(** ** The trace only grows *)

Lemma grows_ret {A} (a : A) : grows (ret a).
Proof. intros m. exists []. symmetry. apply app_nil_r. Qed.

Lemma grows_return_ {A} t : grows (@return_ A t).
Proof. intros m. exists []. symmetry. apply app_nil_r. Qed.

Lemma grows_fault {A} : grows (@fault A).
Proof. intros m. exists []. symmetry. apply app_nil_r. Qed.

Lemma grows_gets {A} (f : machine -> A) : grows (gets f).
Proof. intros m. exists []. symmetry. apply app_nil_r. Qed.

Lemma grows_read {A} (f : machine -> option A) : grows (read f).
Proof.
  intros m. exists []. unfold read. destruct (f m); symmetry; apply app_nil_r.
Qed.

Lemma grows_modify f :
  (forall m, exists l, m_trace (f m) = m_trace m ++ l) -> grows (modify f).
Proof. intros H m. exact (H m). Qed.

Lemma grows_bind {A B} (c : M A) (k : A -> M B) :
  grows c -> (forall a, grows (k a)) -> grows (bind c k).
Proof.
  intros Hc Hk m. unfold bind. destruct (Hc m) as (l1 & H1).
  destruct (c m) as [[a|t|] m']; cbn [snd] in *.
  - destruct (Hk a m') as (l2 & H2). exists (l1 ++ l2).
    rewrite H2, H1. symmetry. apply app_assoc.
  - exists l1. exact H1.
  - exists l1. exact H1.
Qed.

Lemma grows_if {A} (b : bool) (c1 c2 : M A) :
  grows c1 -> grows c2 -> grows (if b then c1 else c2).
Proof. destruct b; trivial. Qed.

Lemma grows_for_from n : forall i body,
  (forall j, grows (body j)) -> grows (for_from n i body).
Proof.
  induction n as [|n IH]; intros i body Hb; cbn [for_from].
  - apply grows_ret.
  - apply grows_bind; [apply Hb | intros _; apply IH, Hb].
Qed.

Lemma trace_record e m : exists l, m_trace (record e m) = m_trace m ++ l.
Proof. exists [e]. reflexivity. Qed.

Lemma trace_set_state r s m : exists l, m_trace (set_state r s m) = m_trace m ++ l.
Proof. exists []. destruct r; symmetry; apply app_nil_r. Qed.

Lemma trace_set_hash i h m : exists l, m_trace (set_hash i h m) = m_trace m ++ l.
Proof. exists []. symmetry; apply app_nil_r. Qed.

Lemma trace_set_block b m : exists l, m_trace (set_block b m) = m_trace m ++ l.
Proof. exists []. symmetry; apply app_nil_r. Qed.

Lemma trace_set_out o m : exists l, m_trace (set_out o m) = m_trace m ++ l.
Proof. exists []. symmetry; apply app_nil_r. Qed.

Create HintDb grows discriminated.

Ltac solve_grows :=
  repeat lazymatch goal with
    | |- forall _, _ => intro
    | |- grows (ret _) => apply grows_ret
    | |- grows (return_ _) => apply grows_return_
    | |- grows fault => apply grows_fault
    | |- grows (gets _) => apply grows_gets
    | |- grows (read _) => apply grows_read
    | |- grows (modify _) => apply grows_modify
    | |- grows (bind _ _) => apply grows_bind
    | |- grows (if _ then _ else _) => apply grows_if
    | |- grows (for_from _ _ _) => apply grows_for_from
    | |- grows (for_ _ _ _) => apply grows_for_from
    | |- grows _ => solve [auto 1 with grows nocore]
    | |- exists _, m_trace (record _ _) = _ => apply trace_record
    | |- exists _, m_trace (set_state _ _ _) = _ => apply trace_set_state
    | |- exists _, m_trace (set_hash _ _ _) = _ => apply trace_set_hash
    | |- exists _, m_trace (set_block _ _) = _ => apply trace_set_block
    | |- exists _, m_trace (set_out _ _) = _ => apply trace_set_out
    end.

Lemma grows_blake2s_init_param r P : grows (blake2s_init_param r P).
Proof. unfold blake2s_init_param. solve_grows. Qed.

Lemma grows_blake2s_update r bytes : grows (blake2s_update r bytes).
Proof. unfold blake2s_update. solve_grows. Qed.

Lemma grows_blake2s_final r n : grows (blake2s_final r n).
Proof. unfold blake2s_final. solve_grows. Qed.

Lemma grows_mark_last_node r : grows (mark_last_node r).
Proof. unfold mark_last_node. solve_grows. Qed.

Lemma grows_secure_zero_memory_block n : grows (secure_zero_memory_block n).
Proof. unfold secure_zero_memory_block. solve_grows. Qed.

#[local] Hint Resolve grows_blake2s_init_param grows_blake2s_update
  grows_blake2s_final grows_mark_last_node grows_secure_zero_memory_block
  : grows.

Lemma grows_lane_while fuel input id__ : forall in__ inlen__,
  grows (lane_while fuel input id__ in__ inlen__).
Proof.
  induction fuel as [|fuel IH]; intros in__ inlen__; cbn [lane_while];
    solve_grows.
Qed.

#[local] Hint Resolve grows_lane_while : grows.

Lemma grows_lane input id__ : grows (lane input id__).
Proof. unfold lane. cbv zeta. solve_grows. Qed.

#[local] Hint Resolve grows_lane : grows.

Lemma grows_blake2sp_init_leaf r a b c d e f g :
  grows (blake2sp_init_leaf r a b c d e f g).
Proof. unfold blake2sp_init_leaf. solve_grows. Qed.

Lemma grows_blake2sp_init_root r a b d e f g :
  grows (blake2sp_init_root r a b d e f g).
Proof. unfold blake2sp_init_root. solve_grows. Qed.

#[local] Hint Resolve grows_blake2sp_init_leaf grows_blake2sp_init_root : grows.

(** Once the guards of lines 98-99 are passed, the first thing a call does
    is hand the block of [S[0]] to [blake2s_init_param], whatever the
    library answers afterwards. *)
Lemma run_starts_lane_work input key outlen salt_ personal_ :
  1 <= outlen <= BLAKE2S_OUTBYTES ->
  size key <= BLAKE2S_KEYBYTES ->
  exists rest,
    m_trace (snd (run input key outlen salt_ personal_)) =
    ev_init_param (S_ 0) (leaf_block key outlen salt_ personal_ 0) :: rest.
Proof.
  intros Ho Hk. unfold run.
  eassert (Heq : blake2sp_hash input key outlen salt_ personal_ machine0 =
                 _ (record (ev_init_param (S_ 0)
                              (leaf_block key outlen salt_ personal_ 0)) machine0)).
  { unfold blake2sp_hash.
    replace ((outlen =? 0) || (outlen >? BLAKE2S_OUTBYTES)) with false
      by (symmetry; apply orb_false_iff; split;
          [apply Z.eqb_neq | apply gtb_false]; arith).
    rewrite (gtb_false (size key)) by exact Hk.
    do 2 apply step_ret.
    unfold for_. change (Z.to_nat (PARALLELISM_DEGREE - 0)) with 8%nat.
    cbn [for_from]. unfold blake2sp_init_leaf at 1, blake2s_init_param at 1.
    do 3 apply step_assoc. apply step_modify. cbv beta.
    unfold leaf_block. reflexivity. }
  rewrite Heq.
  match type of Heq with
  | _ = ?c _ => assert (Hg : grows c) by solve_grows
  end.
  destruct (Hg (record (ev_init_param (S_ 0)
                          (leaf_block key outlen salt_ personal_ 0)) machine0))
    as (l & Hl).
  exists l. exact Hl.
Qed.

(** * The claims *)

(** C1.  Lane [i] of a call on an input of [L] bytes is finalized exactly
    once, and the state handed to [blake2s_final] has absorbed, after the
    key block if there is one, exactly the slices the spec assigns to the
    lane, one update per slice: the full 64-byte blocks at offsets
    [i*64 + j*512] for [j < L / 512], then one tail of
    [min(64, R - i*64)] bytes iff [R = L mod 512 > i*64].  Every slice lies
    within the input; a lane without a tail is finalized all the same. *)
Theorem lane_absorbs_strided_slice input key outlen salt_ personal_ i :
  valid_call input key outlen ->
  init_accepts_bounded ->
  0 <= i <= 7 ->
  let tr := m_trace (snd (run input key outlen salt_ personal_)) in
  exists s : blake2s_state,
    (forall s' n, In (S_ i, s', n) (finalized tr) <-> s' = s /\ n = BLAKE2S_OUTBYTES) /\
    absorbed s =
      key_chunks key
      ++ map (fun sl => load (data input) (fst sl) (snd sl))
             (lane_slices (size input) i) /\
    Forall (fun sl => 0 <= fst sl /\ 0 < snd sl <= BLAKE2S_BLOCKBYTES
                      /\ fst sl + snd sl <= size input)
           (lane_slices (size input) i).
Proof.
  intros Hv Hacc Hi tr. subst tr. rewrite (run_eval _ _ _ _ _ Hv Hacc).
  cbn [snd]. rewrite finalized_final_machine.
  exists (leaf_state input key outlen salt_ personal_ i). split; [|split].
  - intros s' n. rewrite in_finalized_leaf. tauto.
  - reflexivity.
  - apply lane_slices_in_bounds; [apply Hv | exact Hi].
Qed.

(** C2.  The parameter blocks handed to [blake2s_init_param] are, in order,
    those of [S[0]] .. [S[7]] and of [FS].  Each has digest_length = outlen,
    key_length = the key size, fanout = 8, depth = 2, leaf_length = 0 and
    inner_length = 32; a leaf block has node_offset = its lane index and
    node_depth = 0, the root block node_offset = 0 and node_depth = 1. *)
Theorem parameter_block_fields input key outlen salt_ personal_ :
  valid_call input key outlen ->
  init_accepts_bounded ->
  let blocks := init_blocks (m_trace (snd (run input key outlen salt_ personal_))) in
  map fst blocks = map S_ lanes ++ [FS_] /\
  Forall (fun rP =>
            let P := snd rP in
            digest_length P = outlen /\ key_length P = size key /\
            fanout P = 8 /\ depth P = 2 /\ leaf_length P = 0 /\
            inner_length P = 32 /\
            match fst rP with
            | S_ i => node_offset P = i /\ node_depth P = 0
            | FS_ => node_offset P = 0 /\ node_depth P = 1
            end)
         blocks.
Proof.
  intros Hv Hacc blocks. subst blocks. rewrite (run_eval _ _ _ _ _ Hv Hacc).
  cbn [snd]. rewrite init_blocks_final_machine.
  destruct Hv as (_ & Hk & Ho).
  split; [reflexivity|].
  unfold lanes, leaf_block, root_block, leaf_param, root_param.
  cbn [map app].
  repeat (apply Forall_cons; split;
          [cbn [fst snd digest_length key_length fanout depth leaf_length
                inner_length node_offset node_depth];
           rewrite !uint8_small by arith; repeat split; reflexivity|]).
  apply Forall_nil. trivial.
Qed.

(** C3.  Nine states are finalized, [S[0]] .. [S[7]] and then [FS], each
    once; among the leaf states handed to [blake2s_final] exactly [S[7]] has
    [last_node] set, whatever the input, and [FS] has it set too. *)
Theorem last_node_marks input key outlen salt_ personal_ :
  valid_call input key outlen ->
  init_accepts_bounded ->
  let fin := finalized (m_trace (snd (run input key outlen salt_ personal_))) in
  map (fun c => fst (fst c)) fin = map S_ lanes ++ [FS_] /\
  Forall (fun c =>
            match fst (fst c) with
            | S_ i => last_node (snd (fst c)) = (if i =? 7 then 1 else 0)
            | FS_ => last_node (snd (fst c)) = 1
            end)
         fin.
Proof.
  intros Hv Hacc fin. subst fin. rewrite (run_eval _ _ _ _ _ Hv Hacc).
  cbn [snd]. rewrite finalized_final_machine.
  split; [reflexivity|].
  unfold lanes. cbn [map app].
  repeat (apply Forall_cons; split; [reflexivity|]).
  apply Forall_nil. trivial.
Qed.

Lemma length_key_block key :
  0 <= size key <= BLAKE2S_KEYBYTES ->
  length (key_block key) = Z.to_nat BLAKE2S_BLOCKBYTES.
Proof.
  intros H. unfold key_block. rewrite length_app, length_load, length_replicate.
  arith.
Qed.

Lemma run_config_error input key outlen salt_ personal_ :
  outlen = 0 \/ BLAKE2S_OUTBYTES < outlen \/ BLAKE2S_KEYBYTES < size key ->
  run input key outlen salt_ personal_ = (Return (term_int (-1)), machine0).
Proof.
  intros H. unfold run, blake2sp_hash.
  destruct (Z.eqb_spec outlen 0) as [H0|H0]; [reflexivity|].
  destruct (Z.gtb_spec outlen BLAKE2S_OUTBYTES) as [H1|H1]; [reflexivity|].
  destruct (Z.gtb_spec (size key) BLAKE2S_KEYBYTES) as [H2|H2]; [reflexivity|].
  lia.
Qed.

(** C4.  In a valid call every leaf is finalized with length 32, not
    [outlen], and [hash[i]] holds the 32 bytes obtained; the root state
    handed to [blake2s_final] has absorbed exactly those eight digests, one
    32-byte update each, in lane order 0..7; it is finalized with length
    [outlen], and the call returns the list of those [outlen] bytes. *)
Theorem root_combines_lane_digests input key outlen salt_ personal_ :
  valid_call input key outlen ->
  init_accepts_bounded ->
  let res := fst (run input key outlen salt_ personal_) in
  let m := snd (run input key outlen salt_ personal_) in
  exists (ls : list blake2s_state) (root : blake2s_state) (d : list Z),
    length ls = 8%nat /\
    finalized (m_trace m) =
      map (fun c => (S_ (fst c), snd c, 32)) (zip lanes ls) ++ [(FS_, root, outlen)] /\
    m_hash m = map (fun s => Some (final_bytes s 32)) ls /\
    absorbed root = map (fun s => final_bytes s 32) ls /\
    Forall (fun h => length h = 32%nat) (absorbed root) /\
    d = map enif_make_uint (final_bytes root outlen) /\
    length d = Z.to_nat outlen /\
    res = Return (term_list d).
Proof.
  intros Hv Hacc res m. subst res m. rewrite (run_eval _ _ _ _ _ Hv Hacc).
  cbn [fst snd]. rewrite finalized_final_machine.
  exists (map (leaf_state input key outlen salt_ personal_) lanes),
         (root_state input key outlen salt_ personal_),
         (map enif_make_uint (digest input key outlen salt_ personal_)).
  split; [reflexivity|]. split; [reflexivity|]. split; [reflexivity|].
  split; [reflexivity|]. split.
  - unfold root_state, lanes. cbn [absorbed map].
    repeat (apply Forall_cons; split; [apply length_final_bytes|]).
    apply Forall_nil. trivial.
  - split; [reflexivity|]. split; [|reflexivity].
    unfold digest. rewrite length_map. apply length_final_bytes.
Qed.

(** C5.  In a valid call with a key of [k > 0] bytes, the first buffer
    absorbed by each of the eight leaf states is the same 64-byte block, the
    [k] key bytes followed by [64 - k] zero bytes, and the input slices of
    the lane follow it.  The root state absorbs no such block, while its
    parameter block records the key length [k].  This holds whatever bytes
    [block] holds when it is declared at line 110: the zero bytes are those
    the [memset] of line 111 writes. *)
Theorem key_block_absorbed_by_leaves_only input key outlen salt_ personal_ :
  valid_call input key outlen ->
  init_accepts_bounded ->
  0 < size key ->
  let fin := finalized (m_trace (snd (run input key outlen salt_ personal_))) in
  let kb := load (data key) 0 (size key)
            ++ replicate (Z.to_nat (64 - size key)) x00 in
  length kb = 64%nat /\
  map (fun c => fst (fst c)) fin = map S_ lanes ++ [FS_] /\
  Forall (fun c =>
            let s := snd (fst c) in
            match fst (fst c) with
            | S_ i =>
                absorbed s =
                  kb :: map (fun sl => load (data input) (fst sl) (snd sl))
                            (lane_slices (size input) i)
            | FS_ => ~ In kb (absorbed s) /\ key_length (init_param s) = size key
            end)
         fin.
Proof.
  intros Hv Hacc Hkey fin kb. subst fin.
  rewrite (run_eval _ _ _ _ _ Hv Hacc).
  cbn [snd]. rewrite finalized_final_machine.
  destruct Hv as (_ & Hk & _).
  assert (Hlen : length kb = 64%nat) by (apply (length_key_block key Hk)).
  split; [exact Hlen|]. split; [reflexivity|].
  unfold lanes, leaf_state, key_chunks. rewrite (gtb_true _ _ Hkey).
  cbn [map app].
  repeat (apply Forall_cons; split; [reflexivity|]).
  apply Forall_cons. split; [|apply Forall_nil; trivial].
  cbn [fst snd]. split.
  - unfold root_state. cbn [absorbed]. intros Hin.
    apply in_map_iff in Hin. destruct Hin as (i & Heq & _).
    apply (f_equal length) in Heq. unfold lane_digest in Heq.
    rewrite length_final_bytes, Hlen in Heq. discriminate Heq.
  - unfold root_state, root_block, root_param. cbn [init_param key_length].
    apply uint8_small. arith.
Qed.

(** C7.  When [outlen] is 0 or above 32, or the key is longer than 32 bytes,
    the call returns -1 with its locals untouched: no state initialised, no
    call into BLAKE2s made, no list of digest bytes built.  When [outlen]
    and the key length are within bounds the guards are passed: the call
    goes on to initialise [S[0]], and with a library that accepts in-bounds
    blocks it returns a list of [outlen] digest bytes. *)
Theorem configuration_errors input key outlen salt_ personal_ :
  0 <= size input ->
  0 <= size key ->
  (outlen = 0 \/ BLAKE2S_OUTBYTES < outlen \/ BLAKE2S_KEYBYTES < size key ->
   run input key outlen salt_ personal_ = (Return (term_int (-1)), machine0)) /\
  (1 <= outlen <= BLAKE2S_OUTBYTES /\ size key <= BLAKE2S_KEYBYTES ->
   (exists P rest,
      m_trace (snd (run input key outlen salt_ personal_)) =
      ev_init_param (S_ 0) P :: rest) /\
   (init_accepts_bounded ->
    exists d, fst (run input key outlen salt_ personal_) = Return (term_list d) /\
              length d = Z.to_nat outlen)).
Proof.
  intros HL Hk0. split.
  - apply run_config_error.
  - intros (Ho & Hk). split.
    + destruct (run_starts_lane_work input key outlen salt_ personal_ Ho Hk)
        as (rest & Hrest).
      eexists _, rest. exact Hrest.
    + intros Hacc.
      assert (Hv : valid_call input key outlen) by (repeat split; tauto || lia).
      rewrite (run_eval _ _ _ _ _ Hv Hacc). cbn [fst].
      eexists. split; [reflexivity|].
      unfold digest. rewrite length_map. apply length_final_bytes.
Qed.

(** C8.  In a valid keyed call the trace of library calls starts with the
    eight leaf initialisations, then the eight updates that absorb the key
    block, and the very next call is [secure_zero_memory] on the 64 bytes of
    [block]; when the call returns, [block] holds 64 zero bytes. *)
Theorem key_block_burnt_after_use input key outlen salt_ personal_ :
  valid_call input key outlen ->
  init_accepts_bounded ->
  0 < size key ->
  let m := snd (run input key outlen salt_ personal_) in
  let kb := load (data key) 0 (size key)
            ++ replicate (Z.to_nat (64 - size key)) x00 in
  (exists (P : Z -> blake2s_param) (rest : list event),
     m_trace m =
       map (fun i => ev_init_param (S_ i) (P i)) lanes
       ++ map (fun i => ev_update (S_ i) kb) lanes
       ++ [ev_secure_zero_memory 64] ++ rest) /\
  m_block m = Some (replicate 64 x00).
Proof.
  intros Hv Hacc Hkey m kb. subst m.
  rewrite (run_eval _ _ _ _ _ Hv Hacc). cbn [snd].
  unfold final_machine. cbn [m_trace m_block].
  unfold key_events. rewrite (gtb_true _ _ Hkey). split; [|reflexivity].
  eexists _, _. rewrite <- app_assoc. reflexivity.
Qed.

(** C10.  In a valid call with an empty key no key block exists: [block] is
    never written, and each leaf state handed to [blake2s_final] has absorbed
    the input slices of its lane and nothing else. *)
Theorem no_key_block_without_key input key outlen salt_ personal_ :
  valid_call input key outlen ->
  init_accepts_bounded ->
  size key = 0 ->
  let m := snd (run input key outlen salt_ personal_) in
  let fin := finalized (m_trace m) in
  m_block m = None /\
  ~ (exists n, In (ev_secure_zero_memory n) (m_trace m)) /\
  map (fun c => fst (fst c)) fin = map S_ lanes ++ [FS_] /\
  Forall (fun c =>
            match fst (fst c) with
            | S_ i =>
                absorbed (snd (fst c)) =
                  map (fun sl => load (data input) (fst sl) (snd sl))
                      (lane_slices (size input) i)
            | FS_ => True
            end)
         fin.
Proof.
  intros Hv Hacc Hkey m fin. subst fin m.
  rewrite (run_eval _ _ _ _ _ Hv Hacc). cbn [snd].
  rewrite finalized_final_machine.
  unfold final_machine. cbn [m_trace m_block].
  unfold key_events, lanes, leaf_state, key_chunks.
  rewrite (gtb_false (size key) 0) by lia.
  split; [reflexivity|]. split; [|split; [reflexivity|]].
  - intros (n & Hin). revert Hin. cbn [map concat app]. unfold lane_events.
    match goal with |- In _ ?tr -> False =>
      assert (Hall : Forall (fun e => forall k, e <> ev_secure_zero_memory k) tr)
    end.
    { repeat first
        [ apply Forall_nil_2
        | apply Forall_cons_2; [intros k; discriminate|]
        | apply Forall_app_2
        | apply Forall_forall; intros e He k;
          apply list_elem_of_In, in_map_iff in He; destruct He as (c & <- & _);
          discriminate ]. }
    intros Hin. rewrite Forall_forall in Hall.
    apply (Hall _ (proj2 (list_elem_of_In _ _) Hin) n). reflexivity.
  - cbn [map app].
    repeat (apply Forall_cons; split; [first [reflexivity | exact I]|]).
    apply Forall_nil. trivial.
Qed.

Lemma in_init_blocks_leaf (f : Z -> blake2s_param) R i P :
  In (S_ i, P) (map (fun k => (S_ k, f k)) lanes ++ [(FS_, R)]) <->
  (0 <= i <= 7 /\ P = f i).
Proof.
  rewrite in_app_iff, in_map_iff, lanes_spec. split.
  - intros [(k & Hk & Hin)|[Hr|[]]]; [|discriminate].
    injection Hk as -> <-. auto.
  - intros (Hi & ->). left. exists i. auto.
Qed.

Lemma in_init_blocks_root (f : Z -> blake2s_param) R P :
  In (FS_, P) (map (fun k => (S_ k, f k)) lanes ++ [(FS_, R)]) <-> P = R.
Proof.
  rewrite in_app_iff, in_map_iff. split.
  - intros [(k & Hk & Hin)|[Hr|[]]]; [discriminate|].
    injection Hr as <-. reflexivity.
  - intros ->. right. left. reflexivity.
Qed.

Lemma store48_lane i : 0 <= i <= 7 -> store48 (uint64 i) = i.
Proof.
  intros H. unfold store48, uint64.
  change (2 ^ 64) with 18446744073709551616.
  change (2 ^ 48) with 281474976710656.
  rewrite (Z.mod_small i) by lia. apply Z.mod_small. lia.
Qed.

(** C9.  The nine parameter blocks of a valid call are pairwise distinct:
    two leaf blocks of different lanes differ in node_offset and in nothing
    else, and a leaf block has node_depth 0 where the root block has 1. *)
Theorem parameter_blocks_distinct input key outlen salt_ personal_ :
  valid_call input key outlen ->
  init_accepts_bounded ->
  let blocks := init_blocks (m_trace (snd (run input key outlen salt_ personal_))) in
  length blocks = 9%nat /\
  List.NoDup (map snd blocks) /\
  (forall i j P Q,
     In (S_ i, P) blocks -> In (S_ j, Q) blocks -> i <> j ->
     node_offset P <> node_offset Q /\ same_but_node_offset P Q) /\
  (forall i P R,
     In (S_ i, P) blocks -> In (FS_, R) blocks ->
     node_depth P = 0 /\ node_depth R = 1).
Proof.
  intros Hv Hacc blocks. subst blocks. rewrite (run_eval _ _ _ _ _ Hv Hacc).
  cbn [snd]. rewrite init_blocks_final_machine.
  split; [reflexivity|]. split; [|split].
  - apply (NoDup_map_inv (fun P => (node_depth P, node_offset P))).
    rewrite !map_app, !map_map. cbn [map app snd].
    unfold lanes, leaf_block, root_block, leaf_param, root_param.
    cbn [map app node_depth node_offset].
    repeat (apply List.NoDup_cons;
            [cbn [In]; intros Hin;
             repeat (destruct Hin as [Hin|Hin]; [discriminate Hin|]);
             exact Hin|]).
    apply List.NoDup_nil.
  - intros i j P Q HP HQ Hij.
    apply in_init_blocks_leaf in HP, HQ. destruct HP as (Hi & ->), HQ as (Hj & ->).
    split; [|repeat split].
    unfold leaf_block, leaf_param. cbn [node_offset].
    rewrite !store48_lane by assumption. exact Hij.
  - intros i P R HP HR.
    apply in_init_blocks_leaf in HP. apply in_init_blocks_root in HR.
    destruct HP as (_ & ->). subst R. split; reflexivity.
Qed.

(** ** The salt member *)

(** With a salt whose length is not a multiple of 256 the salt member of
    every block is the 8 bytes found at [salt.data], whatever the length;
    with a length that converts to 0 it is 8 zero bytes. *)
Lemma salt_member_of_blocks input key outlen salt_ personal_ :
  valid_call input key outlen ->
  init_accepts_bounded ->
  Forall (fun rP =>
            salt (snd rP) =
              if uint8 (size salt_) =? 0
              then replicate 8 x00
              else load (data salt_) 0 BLAKE2S_SALTBYTES)
         (init_blocks (m_trace (snd (run input key outlen salt_ personal_)))).
Proof.
  intros Hv Hacc. rewrite (run_eval _ _ _ _ _ Hv Hacc).
  cbn [snd]. rewrite init_blocks_final_machine.
  unfold lanes, leaf_block, root_block, leaf_param, root_param.
  cbn [map app].
  repeat (apply Forall_cons; split;
          [cbn [snd salt]; destruct (uint8 (size salt_) =? 0); reflexivity|]).
  apply Forall_nil. trivial.
Qed.

(** ** Runs of the model on a 600-byte input *)

Example lane_slices_600_lane0 : lane_slices 600 0 = [(0, 64); (512, 64)].
Proof. reflexivity. Qed.

Example lane_slices_600_lane1 : lane_slices 600 1 = [(64, 64); (576, 24)].
Proof. reflexivity. Qed.

Example lane_slices_600_lane2 : lane_slices 600 2 = [(128, 64)].
Proof. reflexivity. Qed.

Example lane_slices_empty_input : lane_slices 0 7 = [].
Proof. reflexivity. Qed.

(** * Further properties of the code *)

(** ** Calls the library rejects *)

(** Run the statements at the head of the program up to the next branch
    on a value the library returned. *)
Ltac run_to_branch HL :=
  lazymatch goal with
  | |- holds ?Q (?c ?m) =>
      let E := fresh "E" in
      eassert (E : c m = _); [repeat step HL; reflexivity | rewrite E; clear E]
  end.

Ltac pass_guards Ho Hk :=
  unfold run, blake2sp_hash;
  replace ((_ =? 0) || (_ >? BLAKE2S_OUTBYTES)) with false
    by (symmetry; apply orb_false_iff; split;
        [apply Z.eqb_neq | apply gtb_false]; arith);
  rewrite (gtb_false _ BLAKE2S_KEYBYTES) by exact Hk;
  change machine0 with
    {| m_S := [None; None; None; None; None; None; None; None];
       m_FS := None;
       m_hash := [None; None; None; None; None; None; None; None];
       m_block := None;
       m_out := replicate (Z.to_nat BLAKE2S_OUTBYTES) x00;
       m_trace := [] |};
  change PARALLELISM_DEGREE with 8;
  unfold for_; change (Z.to_nat (8 - 0)) with 8%nat; cbn [for_from];
  norm_index.

Ltac leaf_rejected_branch :=
  unfold holds, aborted_in_leaf_init, bind, return_; cbn [fst snd];
  cbn [m_trace m_block m_hash m_FS m_out];
  split; [reflexivity|]; split;
  [ repeat (apply Forall_cons_2; [eexists _, _; split; [reflexivity|lia]|]);
    apply Forall_nil_2
  | repeat split ].

Lemma run_leaf_rejected input key outlen salt_ personal_ i :
  1 <= outlen <= BLAKE2S_OUTBYTES ->
  size key <= BLAKE2S_KEYBYTES ->
  0 <= i <= 7 ->
  blake2s_init_param_status (leaf_block key outlen salt_ personal_ i) < 0 ->
  aborted_in_leaf_init i (run input key outlen salt_ personal_).
Proof.
  intros Ho Hk Hi Hrej.
  change (holds (aborted_in_leaf_init i) (run input key outlen salt_ personal_)).
  unfold leaf_block in Hrej.
  assert (Hcases : i = 0 \/ i = 1 \/ i = 2 \/ i = 3 \/ i = 4 \/ i = 5 \/ i = 6 \/ i = 7)
    by lia.
  pass_guards Ho Hk.
  repeat (destruct Hcases as [->|Hcases]); try subst i;
    repeat (run_to_branch I;
            lazymatch goal with
            | |- holds _ (bind (if ?st <? 0 then _ else _) _ _) =>
                let H := fresh "Hst" in
                destruct (Z.ltb_spec st 0) as [H|H];
                [leaf_rejected_branch | try (exfalso; lia)]
            end).
Qed.

(** X1.  When the library rejects the block of leaf [i], the call returns
    -1 from the loop of lines 101-104: the only library calls made are
    [blake2s_init_param] on leaves up to [i]; no update, no finalization,
    no key block, no lane digest, and [out] is still all zero. *)
Theorem leaf_rejection_aborts input key outlen salt_ personal_ i :
  1 <= outlen <= BLAKE2S_OUTBYTES ->
  size key <= BLAKE2S_KEYBYTES ->
  0 <= i <= 7 ->
  blake2s_init_param_status (leaf_block key outlen salt_ personal_ i) < 0 ->
  let r := run input key outlen salt_ personal_ in
  fst r = Return (term_int (-1)) /\
  Forall (fun e => exists j P, e = ev_init_param (S_ j) P /\ 0 <= j <= i)
         (m_trace (snd r)) /\
  m_block (snd r) = None /\
  m_hash (snd r) = replicate 8 None /\
  m_FS (snd r) = None /\
  m_out (snd r) = replicate 32 x00.
Proof.
  intros Ho Hk Hi Hrej. exact (run_leaf_rejected _ _ _ _ _ _ Ho Hk Hi Hrej).
Qed.

Lemma run_leaves_accepted input key outlen salt_ personal_ :
  valid_call input key outlen ->
  leaves_accepted key outlen salt_ personal_ ->
  run input key outlen salt_ personal_ =
  if blake2s_init_param_status (root_block key outlen salt_ personal_) <? 0
  then (Return (term_int (-1)),
        root_rejected_machine input key outlen salt_ personal_)
  else (Return (term_list (map enif_make_uint
                             (digest input key outlen salt_ personal_))),
        final_machine input key outlen salt_ personal_).
Proof.
  intros (HL & Hk & Ho) Hacc.
  assert (Hleaf : forall i, 0 <= i <= 7 ->
    (blake2s_init_param_status
       (leaf_param (uint8 outlen) (uint8 (size key)) (uint64 i) (data salt_)
          (data personal_) (uint8 (size salt_)) (uint8 (size personal_))) <? 0)
    = false).
  { intros i Hi. apply Z.ltb_ge, (Hacc i Hi). }
  match goal with |- ?x = ?y => change (holds (fun r => r = y) x) end.
  unfold root_rejected_machine, final_machine, digest, lane_events, root_state,
    key_events, lane_digest, leaf_state, key_chunks, root_block, leaf_block, lanes.
  pass_guards Ho (proj2 Hk).
  destruct (Z_lt_le_dec 0 (size key)) as [Hkey|Hkey];
    [rewrite (gtb_true _ _ Hkey) | rewrite (gtb_false _ _ Hkey)].
  all: repeat (run_to_branch HL; rewrite Hleaf by lia).
  all: run_to_branch HL.
  all: lazymatch goal with
       | |- holds _ (bind (if ?st <? 0 then _ else _) _ _) =>
           destruct (Z.ltb_spec st 0) as [Hroot|Hroot]
       end.
  all: unfold holds.
  all: repeat step HL.
  all: rewrite ?key_block_built, ?block_zeroed, ?take_final_bytes by exact Hk.
  all: rewrite ?out_written, ?take_out by lia.
  all: unfold bind, return_; cbn [map concat app]; do 2 f_equal.
  all: repeat rewrite <- app_assoc; reflexivity.
Qed.

Lemma leaves_accepted_dec key outlen salt_ personal_ :
  leaves_accepted key outlen salt_ personal_ \/
  exists i, 0 <= i <= 7 /\
    blake2s_init_param_status (leaf_block key outlen salt_ personal_ i) < 0.
Proof.
  unfold leaves_accepted.
  set (f := fun i => blake2s_init_param_status (leaf_block key outlen salt_ personal_ i)).
  change (forall i, 0 <= i <= 7 -> 0 <= f i) with (forall i, 0 <= i <= 7 -> 0 <= f i).
  destruct (Z_lt_dec (f 0) 0); [right; exists 0; split; [lia|assumption]|].
  destruct (Z_lt_dec (f 1) 0); [right; exists 1; split; [lia|assumption]|].
  destruct (Z_lt_dec (f 2) 0); [right; exists 2; split; [lia|assumption]|].
  destruct (Z_lt_dec (f 3) 0); [right; exists 3; split; [lia|assumption]|].
  destruct (Z_lt_dec (f 4) 0); [right; exists 4; split; [lia|assumption]|].
  destruct (Z_lt_dec (f 5) 0); [right; exists 5; split; [lia|assumption]|].
  destruct (Z_lt_dec (f 6) 0); [right; exists 6; split; [lia|assumption]|].
  destruct (Z_lt_dec (f 7) 0); [right; exists 7; split; [lia|assumption]|].
  left. intros i Hi. fold (f i).
  assert (Hc : i = 0 \/ i = 1 \/ i = 2 \/ i = 3 \/ i = 4 \/ i = 5 \/ i = 6 \/ i = 7)
    by lia.
  repeat (destruct Hc as [->|Hc]); try subst i; lia.
Qed.

Lemma finalized_root_rejected input key outlen salt_ personal_ :
  finalized (m_trace (root_rejected_machine input key outlen salt_ personal_)) =
  map (fun i => (S_ i, leaf_state input key outlen salt_ personal_ i, BLAKE2S_OUTBYTES))
      lanes.
Proof.
  unfold root_rejected_machine, lanes. cbn [m_trace map concat].
  unfold lane_events.
  rewrite !finalized_app, finalized_key_events, !finalized_updates.
  reflexivity.
Qed.

(** X2.  When the library accepts the eight leaf blocks and rejects the
    root block, the call returns -1 from line 152: all eight lanes have been
    hashed and finalized, the root state has absorbed nothing, [out] is
    still all zero, and the key block, if there was one, is zeroed. *)
Theorem root_rejection_aborts input key outlen salt_ personal_ :
  valid_call input key outlen ->
  leaves_accepted key outlen salt_ personal_ ->
  blake2s_init_param_status (root_block key outlen salt_ personal_) < 0 ->
  let r := run input key outlen salt_ personal_ in
  fst r = Return (term_int (-1)) /\
  map (fun c => fst (fst c)) (finalized (m_trace (snd r))) = map S_ lanes /\
  (forall bytes, ~ In (ev_update FS_ bytes) (m_trace (snd r))) /\
  m_out (snd r) = replicate 32 x00 /\
  m_block (snd r) = if size key >? 0 then Some (replicate 64 x00) else None.
Proof.
  intros Hv Hacc Hroot r. subst r.
  rewrite (run_leaves_accepted _ _ _ _ _ Hv Hacc).
  rewrite (proj2 (Z.ltb_lt _ _) Hroot). cbn [fst snd].
  split; [reflexivity|]. split; [|split; [|split; reflexivity]].
  - rewrite finalized_root_rejected. reflexivity.
  - intros bytes. unfold root_rejected_machine, key_events, lane_events, lanes.
    cbn [m_trace map concat app].
    match goal with |- ~ In _ ?tr =>
      assert (Hall : Forall (fun e => forall b, e <> ev_update FS_ b) tr)
    end.
    { destruct (size key >? 0);
      repeat first
        [ apply Forall_nil_2
        | apply Forall_cons_2; [intros b; discriminate|]
        | apply Forall_app_2
        | apply Forall_forall; intros e He b;
          apply list_elem_of_In, in_map_iff in He; destruct He as (c & <- & _);
          discriminate ]. }
    intros Hin. rewrite Forall_forall in Hall.
    apply (Hall _ (proj2 (list_elem_of_In _ _) Hin) bytes). reflexivity.
Qed.


Lemma enif_make_uint_byte b : 0 <= enif_make_uint b < 256.
Proof.
  unfold enif_make_uint. pose proof (Byte.to_N_bounded b). lia.
Qed.

(** X4.  Whatever the library answers, a call whose salt and
    personalization are each absent or at least 8 bytes long returns either
    -1 or a list of exactly [outlen] integers, each a byte value: it never
    reads a state, a lane digest or the key block that was not written
    before, and the lane loops end.  A salt or personalization of 1 to 7
    bytes is left out: lines 43, 48, 68 and 73 then read past the binary. *)
Theorem call_returns_error_or_digest input key outlen salt_ personal_ :
  0 <= size input ->
  0 <= size key ->
  0 <= outlen ->
  copy_within salt_ BLAKE2S_SALTBYTES ->
  copy_within personal_ BLAKE2S_PERSONALBYTES ->
  let r := run input key outlen salt_ personal_ in
  fst r = Return (term_int (-1)) \/
  exists d, fst r = Return (term_list d) /\ length d = Z.to_nat outlen /\
            Forall (fun v => 0 <= v < 256) d.
Proof.
  intros HL Hk0 Ho0 _ _ r. subst r.
  destruct (Z.eq_dec outlen 0) as [H0|H0];
    [left; rewrite run_config_error by tauto; reflexivity|].
  destruct (Z_lt_le_dec BLAKE2S_OUTBYTES outlen) as [H1|H1];
    [left; rewrite run_config_error by tauto; reflexivity|].
  destruct (Z_lt_le_dec BLAKE2S_KEYBYTES (size key)) as [H2|H2];
    [left; rewrite run_config_error by tauto; reflexivity|].
  assert (Hv : valid_call input key outlen) by (repeat split; lia).
  destruct (leaves_accepted_dec key outlen salt_ personal_) as [Hacc|(i & Hi & Hrej)].
  - rewrite (run_leaves_accepted _ _ _ _ _ Hv Hacc).
    destruct (_ <? 0); cbn [fst]; [left; reflexivity|].
    right. eexists. split; [reflexivity|]. split.
    + unfold digest. rewrite length_map. apply length_final_bytes.
    + apply Forall_forall. intros v Hin.
      apply list_elem_of_In, in_map_iff in Hin. destruct Hin as (b & <- & _).
      apply enif_make_uint_byte.
  - left.
    apply (run_leaf_rejected input key outlen salt_ personal_ i); [lia|lia|exact Hi|exact Hrej].
Qed.

(** X5.  On every path by which a valid keyed call returns, the key block
    either was never created or holds 64 zero bytes: no return leaves key
    bytes in [block]. *)
Theorem key_block_clean_on_every_return input key outlen salt_ personal_ :
  valid_call input key outlen ->
  0 < size key ->
  let m := snd (run input key outlen salt_ personal_) in
  m_block m = None \/ m_block m = Some (replicate 64 x00).
Proof.
  intros Hv Hkey m. subst m.
  destruct (leaves_accepted_dec key outlen salt_ personal_) as [Hacc|(i & Hi & Hrej)].
  - right. rewrite (run_leaves_accepted _ _ _ _ _ Hv Hacc).
    destruct (_ <? 0); cbn [snd]; unfold root_rejected_machine, final_machine;
      cbn [m_block]; rewrite (gtb_true _ _ Hkey); reflexivity.
  - left. destruct Hv as (_ & Hk & Ho).
    apply (run_leaf_rejected input key outlen salt_ personal_ i Ho (proj2 Hk) Hi Hrej).
Qed.

(** ** What a call reads of its arguments *)

Lemma load_ext (p1 p2 : ptr) off len :
  0 <= off ->
  (forall k, off <= k < off + len -> p1 k = p2 k) ->
  load p1 off len = load p2 off len.
Proof.
  intros Hoff H. unfold load. apply map_ext_in. intros j Hj.
  apply in_seq in Hj. apply H. lia.
Qed.

Lemma bind_ext {A B} (c c' : M A) (k k' : A -> M B) m :
  c m = c' m -> (forall a m', k a m' = k' a m') -> bind c k m = bind c' k' m.
Proof.
  intros Hc Hk. unfold bind. rewrite Hc.
  destruct (c' m) as [[a|t|] m']; [apply Hk | reflexivity | reflexivity].
Qed.

Lemma bind_assoc {A B C} (c : M A) (f : A -> M B) (k : B -> M C) m :
  bind (bind c f) k m = bind c (fun a => bind (f a) k) m.
Proof. apply step_assoc. reflexivity. Qed.

Lemma for_from_ext n : forall lo (body1 body2 : Z -> M unit) m,
  (forall j m', lo <= j < lo + Z.of_nat n -> body1 j m' = body2 j m') ->
  for_from n lo body1 m = for_from n lo body2 m.
Proof.
  induction n as [|n IH]; intros lo body1 body2 m H; cbn [for_from].
  - reflexivity.
  - apply bind_ext; [apply H; lia|].
    intros _ m'. apply IH. intros j m'' Hj. apply H. lia.
Qed.

(** The loop of a lane on two inputs with the same bytes, followed by
    anything that agrees on what the loop leaves in [in__] and [inlen__]. *)
Lemma lane_while_ext {B} in1 in2 id__ (k1 k2 : Z * Z -> M B) :
  same_bytes in1 in2 ->
  0 <= id__ <= 7 ->
  (forall p m, 0 <= fst p -> fst p + snd p <= size in1 + id__ * 64 ->
               k1 p m = k2 p m) ->
  forall fuel in__ inlen__ m,
    0 <= in__ -> in__ + inlen__ <= size in1 + id__ * 64 ->
    bind (lane_while fuel in1 id__ in__ inlen__) k1 m =
    bind (lane_while fuel in2 id__ in__ inlen__) k2 m.
Proof.
  intros (Hsize & Hdata) Hid Hk fuel.
  induction fuel as [|fuel IH]; intros in__ inlen__ m Hin Hsum; cbn [lane_while];
    destruct (Z.geb_spec inlen__ (PARALLELISM_DEGREE * BLAKE2S_BLOCKBYTES)) as [Hge|Hlt].
  - reflexivity.
  - apply (Hk (in__, inlen__)); assumption.
  - rewrite !bind_assoc.
    rewrite (load_ext (data in1) (data in2) in__ BLAKE2S_BLOCKBYTES);
      [|exact Hin|intros k Hkk; apply Hdata; arith].
    apply bind_ext; [reflexivity|]. intros _ m'. apply IH; arith.
  - apply (Hk (in__, inlen__)); assumption.
Qed.

Lemma lane_ext in1 in2 id__ m :
  same_bytes in1 in2 ->
  0 <= id__ <= 7 ->
  lane in1 id__ m = lane in2 id__ m.
Proof.
  intros Hsame Hid. unfold lane. cbv zeta.
  destruct Hsame as (Hsize & Hdata). rewrite <- Hsize.
  apply (lane_while_ext in1 in2 id__); [split; assumption | exact Hid | | arith | arith].
  intros [in__ inlen__] m' Hin Hsum. cbn [fst snd] in *.
  apply bind_ext; [|reflexivity].
  destruct (Z.gtb_spec inlen__ (id__ * BLAKE2S_BLOCKBYTES)) as [Hgt|Hle];
    [|reflexivity].
  rewrite (load_ext (data in1) (data in2)); [reflexivity | exact Hin |].
  intros k Hk. apply Hdata.
  destruct (Z.leb_spec (inlen__ - id__ * BLAKE2S_BLOCKBYTES) BLAKE2S_BLOCKBYTES);
    arith.
Qed.

(** X6.  A call reads nothing of its input and its key beyond their sizes:
    two calls whose inputs hold the same bytes and whose keys hold the same
    bytes return the same term and leave the same locals and the same trace,
    whatever memory follows the binaries and whatever the library does. *)
Theorem input_and_key_read_within_size in1 in2 key1 key2 outlen salt_ personal_ :
  same_bytes in1 in2 ->
  same_bytes key1 key2 ->
  run in1 key1 outlen salt_ personal_ = run in2 key2 outlen salt_ personal_.
Proof.
  intros Hin (Hksize & Hkdata). unfold run, blake2sp_hash, memcpy.
  rewrite <- Hksize.
  rewrite (load_ext (data key1) (data key2) 0 (size key1));
    [|lia|intros k Hk; apply Hkdata; lia].
  do 5 (apply bind_ext; [reflexivity|]; intros ? ?).
  apply bind_ext; [|reflexivity].
  unfold for_. apply for_from_ext. intros j mj Hj.
  apply lane_ext; [exact Hin|].
  revert Hj. unfold PARALLELISM_DEGREE. lia.
Qed.

(** X7.  A salt whose length is a multiple of 256 is treated as absent,
    whatever the personalization, and a personalization whose length is a
    multiple of 256 is treated as absent, whatever the salt: the length
    reaches [blake2sp_init_leaf] and [blake2sp_init_root] as a [uint8_t],
    so the call is the call made with any other such binary in its place,
    the empty one included.  [other] is the argument that stays. *)
Theorem salt_of_256_bytes_is_ignored input key outlen b1 b2 other :
  size b1 mod 256 = 0 -> size b2 mod 256 = 0 ->
  run input key outlen b1 other = run input key outlen b2 other /\
  run input key outlen other b1 = run input key outlen other b2.
Proof.
  intros H1 H2. unfold run, blake2sp_hash, uint8.
  change (2 ^ 8) with 256. rewrite H1, H2. split; reflexivity.
Qed.

(** X8.  Of a salt whose length is not a multiple of 256 the call uses the
    8 bytes at its start and nothing else, not even its length, whatever
    the personalization (none included); and the same of a personalization,
    whatever the salt: longer binaries are cut to 8 bytes without an error.
    [other] is the argument that stays. *)
Theorem salt_cut_to_eight_bytes input key outlen b1 b2 other :
  size b1 mod 256 <> 0 -> size b2 mod 256 <> 0 ->
  (forall k, 0 <= k < 8 -> data b1 k = data b2 k) ->
  run input key outlen b1 other = run input key outlen b2 other /\
  run input key outlen other b1 = run input key outlen other b2.
Proof.
  intros H1 H2 Hb.
  assert (Hload : load (data b1) 0 8 = load (data b2) 0 8)
    by (apply load_ext; [lia|intros k Hk; apply Hb; lia]).
  unfold run, blake2sp_hash, blake2sp_init_leaf, blake2sp_init_root,
    leaf_param, root_param, memcpy, uint8.
  change (2 ^ 8) with 256.
  change BLAKE2S_SALTBYTES with 8. change BLAKE2S_PERSONALBYTES with 8.
  rewrite !(proj2 (Z.eqb_neq _ 0) H1), !(proj2 (Z.eqb_neq _ 0) H2).
  cbn [negb]. rewrite !Hload. split; reflexivity.
Qed.

(** ** The lanes do not interfere *)

Lemma for_lanes_is_run_lanes input m :
  for_ 0 PARALLELISM_DEGREE (lane input) m = run_lanes input lanes m.
Proof. reflexivity. Qed.

Lemma after_lane_fields input i s m :
  get_state (S_ i) m = Some s ->
  let m' := after_lane input i s m in
  m_S m' = <[Z.to_nat i := Some (with_absorbed s (lane_chunks input i))]> (m_S m) /\
  m_hash m' =
    <[Z.to_nat i := Some (final_bytes (with_absorbed s (lane_chunks input i))
                            BLAKE2S_OUTBYTES)]> (m_hash m) /\
  m_FS m' = m_FS m /\ m_block m' = m_block m /\ m_out m' = m_out m.
Proof.
  intros H. unfold after_lane, absorb_all. rewrite H. cbn. repeat split.
Qed.

Lemma run_lanes_result input : forall order m,
  0 <= size input ->
  List.NoDup order ->
  length (m_hash m) = 8%nat ->
  (forall i, In i order -> 0 <= i <= 7 /\ is_Some (get_state (S_ i) m)) ->
  exists m',
    run_lanes input order m = (Next tt, m') /\
    (length (m_hash m') = 8%nat /\ length (m_S m') = length (m_S m)) /\
    (forall i s, In i order -> get_state (S_ i) m = Some s ->
       get_state (S_ i) m' = Some (with_absorbed s (lane_chunks input i)) /\
       m_hash m' !! Z.to_nat i =
         Some (Some (final_bytes (with_absorbed s (lane_chunks input i))
                       BLAKE2S_OUTBYTES))) /\
    (forall i, 0 <= i -> ~ In i order ->
       m_S m' !! Z.to_nat i = m_S m !! Z.to_nat i /\
       m_hash m' !! Z.to_nat i = m_hash m !! Z.to_nat i) /\
    m_FS m' = m_FS m /\ m_block m' = m_block m /\ m_out m' = m_out m.
Proof.
  intros order m HL. revert m.
  induction order as [|i order IH]; intros m Hnd Hlen Hinit.
  - exists m. cbn [run_lanes fold_right].
    split; [reflexivity|]. split; [split; [exact Hlen|reflexivity]|].
    split; [|split].
    + intros j sj [].
    + intros j _ _. split; reflexivity.
    + repeat split.
  - apply List.NoDup_cons_iff in Hnd. destruct Hnd as (Hni & Hnd).
    destruct (Hinit i (or_introl eq_refl)) as (Hi & (si & Hsi)).
    destruct (after_lane_fields input i si m Hsi)
      as (HS & Hh & HFS & Hb & Ho). cbv zeta in *.
    set (m1 := after_lane input i si m) in *.
    assert (Hother : forall j, 0 <= j -> j <> i ->
              m_S m1 !! Z.to_nat j = m_S m !! Z.to_nat j /\
              m_hash m1 !! Z.to_nat j = m_hash m !! Z.to_nat j).
    { intros j Hj Hji. rewrite HS, Hh.
      rewrite !list_lookup_insert_ne by lia. split; reflexivity. }
    destruct (IH m1 Hnd)
      as (m' & Hrun & (Hlen' & HlenS) & Hin & Hout & HFS' & Hb' & Ho').
    { rewrite Hh, length_insert. exact Hlen. }
    { intros j Hj. destruct (Hinit j (or_intror Hj)) as (Hj07 & Hsome).
      split; [exact Hj07|].
      assert (j <> i) by (intros ->; contradiction).
      unfold get_state in *. rewrite (proj1 (Hother j (proj1 Hj07) H)). exact Hsome. }
    exists m'. split; [|split; [split; [exact Hlen'|]|split; [|split]]].
    2: { rewrite HlenS, HS. apply length_insert. }
    + cbn [run_lanes fold_right]. unfold bind at 1.
      rewrite (lane_eval input i m si Hsi HL). exact Hrun.
    + intros j s [<-|Hj] Hs.
      * destruct (Hout i (proj1 Hi) Hni) as (HSi & Hhi).
        rewrite Hsi in Hs. injection Hs as <-.
        split.
        -- unfold get_state. rewrite HSi, HS.
           rewrite list_lookup_insert_eq; [reflexivity|].
           unfold get_state in Hsi.
           destruct (m_S m !! Z.to_nat i) eqn:E; [|discriminate].
           eapply lookup_lt_Some; eauto.
        -- rewrite Hhi, Hh. apply list_lookup_insert_eq. lia.
      * assert (j <> i) by (intros ->; contradiction).
        destruct (Hinit j (or_intror Hj)) as (Hj07 & _).
        apply (Hin j s Hj). unfold get_state in *.
        rewrite (proj1 (Hother j (proj1 Hj07) H)). exact Hs.
    + intros j Hj Hnj.
      assert (j <> i) by (intros ->; apply Hnj; left; reflexivity).
      destruct (Hout j Hj (fun Hin' => Hnj (or_intror Hin'))) as (H1 & H2).
      rewrite H1, H2. apply Hother; assumption.
    + rewrite HFS', Hb', Ho'. repeat split; assumption.
Qed.

(** X9.  Lane bodies run one after the other, in any order and for any
    set of distinct lanes whose states are initialised, all return normally;
    lane [i] appends its input slices to what [S[i]] had absorbed and writes
    the 32 bytes finalized from it to [hash[i]]; the states and digests of
    the lanes that did not run, [FS], [block] and [out] are left as they
    were. *)
Theorem lanes_touch_only_their_own_objects input : forall order m,
  0 <= size input ->
  List.NoDup order ->
  length (m_hash m) = 8%nat ->
  (forall i, In i order -> 0 <= i <= 7 /\ is_Some (get_state (S_ i) m)) ->
  exists m',
    run_lanes input order m = (Next tt, m') /\
    (length (m_hash m') = 8%nat /\ length (m_S m') = length (m_S m)) /\
    (forall i s, In i order -> get_state (S_ i) m = Some s ->
       get_state (S_ i) m' = Some (with_absorbed s (lane_chunks input i)) /\
       m_hash m' !! Z.to_nat i =
         Some (Some (final_bytes (with_absorbed s (lane_chunks input i))
                       BLAKE2S_OUTBYTES))) /\
    (forall i, 0 <= i -> ~ In i order ->
       m_S m' !! Z.to_nat i = m_S m !! Z.to_nat i /\
       m_hash m' !! Z.to_nat i = m_hash m !! Z.to_nat i) /\
    m_FS m' = m_FS m /\ m_block m' = m_block m /\ m_out m' = m_out m.
Proof. exact (run_lanes_result input). Qed.

Lemma lookup_of_get_state i m s :
  get_state (S_ i) m = Some s -> m_S m !! Z.to_nat i = Some (Some s).
Proof.
  unfold get_state. destruct (m_S m !! Z.to_nat i) as [[s'|]|]; cbn; congruence.
Qed.

(** X10.  Run in any order, the eight lane bodies leave the same locals as
    the loop of line 124 run in the order 0..7: the same leaf states, the
    same lane digests, and [FS], [block] and [out] untouched. *)
Theorem lanes_in_any_order input order m :
  0 <= size input ->
  Permutation order lanes ->
  length (m_S m) = 8%nat ->
  length (m_hash m) = 8%nat ->
  (forall i, 0 <= i <= 7 -> is_Some (get_state (S_ i) m)) ->
  exists m1 m2,
    run_lanes input order m = (Next tt, m1) /\
    for_ 0 PARALLELISM_DEGREE (lane input) m = (Next tt, m2) /\
    m_S m1 = m_S m2 /\ m_hash m1 = m_hash m2 /\
    m_FS m1 = m_FS m2 /\ m_block m1 = m_block m2 /\ m_out m1 = m_out m2.
Proof.
  intros HL Hperm HlenS Hlenh Hinit.
  assert (Hnd : List.NoDup lanes).
  { unfold lanes. repeat (apply List.NoDup_cons; [cbn [In]; lia|]).
    apply List.NoDup_nil. }
  destruct (run_lanes_result input order m HL)
    as (m1 & Hr1 & (Hl1 & HlS1) & Hin1 & _ & HF1 & Hb1 & Ho1).
  { eapply Permutation_NoDup; [symmetry; exact Hperm | exact Hnd]. }
  { exact Hlenh. }
  { intros i Hi. apply (Permutation_in _ Hperm), lanes_spec in Hi. auto. }
  destruct (run_lanes_result input lanes m HL Hnd Hlenh)
    as (m2 & Hr2 & (Hl2 & HlS2) & Hin2 & _ & HF2 & Hb2 & Ho2).
  { intros i Hi. apply lanes_spec in Hi. auto. }
  exists m1, m2. split; [exact Hr1|]. split; [exact Hr2|].
  assert (Heach : forall n, (n < 8)%nat ->
            m_S m1 !! n = m_S m2 !! n /\ m_hash m1 !! n = m_hash m2 !! n).
  { intros n Hn. destruct (Hinit (Z.of_nat n)) as (s & Hs); [lia|].
    assert (Hl : In (Z.of_nat n) lanes) by (apply lanes_spec; lia).
    destruct (Hin1 _ s (Permutation_in _ (Permutation_sym Hperm) Hl) Hs) as (H1 & H1').
    destruct (Hin2 _ s Hl Hs) as (H2 & H2').
    apply lookup_of_get_state in H1, H2. rewrite Nat2Z.id in *.
    rewrite H1, H2, H1', H2'. split; reflexivity. }
  split; [|split; [|rewrite HF1, HF2, Hb1, Hb2, Ho1, Ho2; repeat split]].
  - apply list_eq. intros n. destruct (Nat.lt_ge_cases n 8) as [Hn|Hn].
    + apply Heach, Hn.
    + rewrite !lookup_ge_None_2 by lia. reflexivity.
  - apply list_eq. intros n. destruct (Nat.lt_ge_cases n 8) as [Hn|Hn].
    + apply Heach, Hn.
    + rewrite !lookup_ge_None_2 by lia. reflexivity.
Qed.

(** ** The lanes share out the input *)

Lemma in_lane_slices L i sl :
  0 <= L ->
  In sl (lane_slices L i) <->
  (exists j, 0 <= j < L / 512 /\ sl = (i * 64 + j * 512, 64)) \/
  (L mod 512 > i * 64 /\
   sl = (L - L mod 512 + i * 64, Z.min 64 (L mod 512 - i * 64))).
Proof.
  intros HL. unfold lane_slices, PARALLELISM_DEGREE, BLAKE2S_BLOCKBYTES. cbv zeta.
  change (8 * 64) with 512. rewrite in_app_iff, in_map_iff. split.
  - intros [(j & <- & Hj)|Ht].
    + left. exists (Z.of_nat j). apply in_seq in Hj. split; [lia|reflexivity].
    + right. destruct (Z.gtb_spec (L mod 512) (i * 64)) as [Hgt|Hle];
        [|destruct Ht]. destruct Ht as [<-|[]]. split; [lia|reflexivity].
  - intros [(j & Hj & ->)|(Hgt & ->)].
    + left. exists (Z.to_nat j). rewrite Z2Nat.id by lia. split; [reflexivity|].
      apply in_seq. lia.
    + right. rewrite (gtb_true _ _ (proj1 (Z.gt_lt_iff _ _) Hgt)).
      left. reflexivity.
Qed.

Lemma lane_slices_cover L k :
  0 <= L -> 0 <= k < L ->
  exists i sl, 0 <= i <= 7 /\ In sl (lane_slices L i) /\
               fst sl <= k < fst sl + snd sl.
Proof.
  intros HL Hk. destruct (Z_lt_le_dec k (L - L mod 512)) as [Hfull|Htail].
  - exists ((k mod 512) / 64), ((k mod 512) / 64 * 64 + (k / 512) * 512, 64).
    split; [arith|]. split; [|cbn [fst snd]; arith].
    apply in_lane_slices; [exact HL|]. left. exists (k / 512).
    split; [arith|reflexivity].
  - exists ((k - (L - L mod 512)) / 64),
           (L - L mod 512 + (k - (L - L mod 512)) / 64 * 64,
            Z.min 64 (L mod 512 - (k - (L - L mod 512)) / 64 * 64)).
    split; [arith|]. split; [|cbn [fst snd]; arith].
    apply in_lane_slices; [exact HL|]. right. split; [arith|reflexivity].
Qed.

Lemma lane_slices_disjoint L k i i' sl sl' :
  0 <= L -> 0 <= i <= 7 -> 0 <= i' <= 7 ->
  In sl (lane_slices L i) -> In sl' (lane_slices L i') ->
  fst sl <= k < fst sl + snd sl ->
  fst sl' <= k < fst sl' + snd sl' ->
  i' = i /\ sl' = sl.
Proof.
  intros HL Hi Hi' Hin Hin' Hk Hk'.
  apply in_lane_slices in Hin, Hin'; try exact HL.
  destruct Hin as [(j & Hj & ->)|(Hgt & ->)],
           Hin' as [(j' & Hj' & ->)|(Hgt' & ->)]; cbn [fst snd] in *.
  - assert (j' = j) by lia. subst j'. assert (i' = i) by lia. subst i'.
    split; reflexivity.
  - exfalso. arith.
  - exfalso. arith.
  - assert (i' = i) by lia. subst i'. split; reflexivity.
Qed.

Lemma Zsum_app l1 l2 : Zsum (l1 ++ l2) = Zsum l1 + Zsum l2.
Proof.
  unfold Zsum. induction l1 as [|x l1 IH]; cbn [app fold_right]; [reflexivity|].
  rewrite IH. lia.
Qed.

Lemma Zsum_full_blocks i n : forall a,
  Zsum (map snd (map (fun j : nat => (i * 64 + Z.of_nat j * 512, 64)) (seq a n)))
  = 64 * Z.of_nat n.
Proof.
  induction n as [|n IH]; intros a; [reflexivity|].
  cbn [seq map]. unfold Zsum in *. cbn [fold_right snd]. rewrite IH. lia.
Qed.

Lemma Zsum_lane_slices L i :
  0 <= L ->
  Zsum (map snd (lane_slices L i)) =
  64 * (L / 512) + Z.max 0 (Z.min 64 (L mod 512 - i * 64)).
Proof.
  intros HL. unfold lane_slices, PARALLELISM_DEGREE, BLAKE2S_BLOCKBYTES. cbv zeta.
  change (8 * 64) with 512.
  rewrite map_app, Zsum_app, Zsum_full_blocks.
  destruct (Z.gtb_spec (L mod 512) (i * 64)) as [Hgt|Hle]; unfold Zsum;
    cbn [map fold_right snd]; arith.
Qed.

Lemma Zsum_all_lanes L :
  0 <= L ->
  Zsum (map (fun i => Zsum (map snd (lane_slices L i))) lanes) = L.
Proof.
  intros HL. unfold lanes. cbn [map]. rewrite !Zsum_lane_slices by exact HL.
  unfold Zsum. cbn [fold_right].
  pose proof (Z.mod_pos_bound L 512 ltac:(lia)) as HR.
  pose proof (Z.div_mod L 512 ltac:(lia)) as HD.
  set (R := L mod 512) in *. set (q := L / 512) in *.
  assert (Hc : R < 64 \/ 64 <= R < 128 \/ 128 <= R < 192 \/ 192 <= R < 256 \/
               256 <= R < 320 \/ 320 <= R < 384 \/ 384 <= R < 448 \/ 448 <= R)
    by lia.
  repeat (destruct Hc as [Hc|Hc]); lia.
Qed.

(** X11.  In a valid call the slices the eight leaves absorb share out the
    input exactly: every byte offset of the input lies in one slice of one
    lane and in no other, and the lengths of all slices add up to the length
    of the input. *)
Theorem input_shared_out_exactly input key outlen salt_ personal_ :
  valid_call input key outlen ->
  init_accepts_bounded ->
  let tr := m_trace (snd (run input key outlen salt_ personal_)) in
  exists slices : Z -> list (Z * Z),
    (forall i, 0 <= i <= 7 ->
       exists s, In (S_ i, s, BLAKE2S_OUTBYTES) (finalized tr) /\
                 absorbed s =
                   key_chunks key
                   ++ map (fun sl => load (data input) (fst sl) (snd sl)) (slices i)) /\
    (forall k, 0 <= k < size input ->
       exists i sl, 0 <= i <= 7 /\ In sl (slices i) /\
                    fst sl <= k < fst sl + snd sl /\
                    forall i' sl', 0 <= i' <= 7 -> In sl' (slices i') ->
                                   fst sl' <= k < fst sl' + snd sl' ->
                                   i' = i /\ sl' = sl) /\
    Zsum (map (fun i => Zsum (map snd (slices i))) lanes) = size input.
Proof.
  intros Hv Hacc tr. subst tr. rewrite (run_eval _ _ _ _ _ Hv Hacc).
  cbn [snd]. rewrite finalized_final_machine.
  destruct Hv as (HL & _).
  exists (lane_slices (size input)). split; [|split].
  - intros i Hi. exists (leaf_state input key outlen salt_ personal_ i).
    split; [|reflexivity]. apply in_finalized_leaf. auto.
  - intros k Hk. destruct (lane_slices_cover (size input) k HL Hk)
      as (i & sl & Hi & Hin & Hcov).
    exists i, sl. split; [exact Hi|]. split; [exact Hin|]. split; [exact Hcov|].
    intros i' sl' Hi' Hin' Hcov'.
    apply (lane_slices_disjoint (size input) k i i' sl sl'); assumption.
  - apply Zsum_all_lanes, HL.
Qed.

Lemma lane_slices_short L :
  0 <= L <= 64 ->
  lane_slices L 0 = (if L >? 0 then [(0, L)] else []) /\
  forall i, 1 <= i <= 7 -> lane_slices L i = [].
Proof.
  intros HL. unfold lane_slices, PARALLELISM_DEGREE, BLAKE2S_BLOCKBYTES. cbv zeta.
  change (8 * 64) with 512.
  rewrite Z.div_small, Z.mod_small by lia. cbn [Z.to_nat seq map app].
  split.
  - change (0 * 64) with 0. destruct (Z.gtb_spec L 0); [|reflexivity].
    replace (L - L + 0) with 0 by lia.
    replace (Z.min 64 (L - 0)) with L by lia. reflexivity.
  - intros i Hi. rewrite gtb_false by lia. reflexivity.
Qed.

(** X12.  When the input is at most one block long (0 to 64 bytes), lane 0
    absorbs the whole input in a single update, or nothing if the input is
    empty, and lanes 1..7 absorb no input at all; all eight are finalized
    all the same, over the key block alone or over nothing. *)
Theorem short_input_goes_to_lane_0 input key outlen salt_ personal_ :
  valid_call input key outlen ->
  init_accepts_bounded ->
  size input <= 64 ->
  let fin := finalized (m_trace (snd (run input key outlen salt_ personal_))) in
  map (fun c => fst (fst c)) fin = map S_ lanes ++ [FS_] /\
  Forall (fun c =>
            match fst (fst c) with
            | S_ i =>
                absorbed (snd (fst c)) =
                  key_chunks key
                  ++ (if (i =? 0) && (size input >? 0)
                      then [load (data input) 0 (size input)] else [])
            | FS_ => True
            end)
         fin.
Proof.
  intros Hv Hacc Hshort fin. subst fin. rewrite (run_eval _ _ _ _ _ Hv Hacc).
  cbn [snd]. rewrite finalized_final_machine.
  destruct Hv as (HL & _).
  destruct (lane_slices_short (size input) (conj HL Hshort)) as (H0 & Hrest).
  split; [reflexivity|].
  unfold lanes, leaf_state, lane_chunks. cbn [map app].
  rewrite H0, !Hrest by lia.
  repeat (apply Forall_cons; split;
          [cbn [fst snd absorbed]; first [exact I | destruct (size input >? 0); reflexivity]|]).
  apply Forall_nil. trivial.
Qed.

(** ** The root waits for the leaves *)

(** X13.  In a valid call the root block is handed to [blake2s_init_param]
    only after all eight leaves were finalized: no call before it is about
    [FS], every call after it is, and none of them touches a leaf again. *)
Theorem root_starts_after_all_leaves input key outlen salt_ personal_ :
  valid_call input key outlen ->
  init_accepts_bounded ->
  exists pre post P,
    m_trace (snd (run input key outlen salt_ personal_)) =
      pre ++ ev_init_param FS_ P :: post /\
    Forall (fun e => event_state e <> Some FS_) pre /\
    map (fun c => fst (fst c)) (finalized pre) = map S_ lanes /\
    Forall (fun e => event_state e = Some FS_) post.
Proof.
  intros Hv Hacc. rewrite (run_eval _ _ _ _ _ Hv Hacc). cbn [snd].
  unfold final_machine. cbn [m_trace].
  exists (map (fun i => ev_init_param (S_ i) (leaf_block key outlen salt_ personal_ i))
            lanes
          ++ key_events key
          ++ concat (map (lane_events input key outlen salt_ personal_) lanes)),
         (map (fun i => ev_update FS_ (lane_digest input key outlen salt_ personal_ i))
            lanes
          ++ [ev_final FS_ (root_state input key outlen salt_ personal_) outlen]),
         (root_block key outlen salt_ personal_).
  split; [|split; [|split]].
  - rewrite <- !app_assoc. reflexivity.
  - unfold key_events, lane_events, lanes. cbn [map concat app].
    destruct (size key >? 0);
    repeat first
      [ apply Forall_nil_2
      | apply Forall_cons_2; [discriminate|]
      | apply Forall_app_2
      | apply Forall_forall; intros e He;
        apply list_elem_of_In, in_map_iff in He; destruct He as (c & <- & _);
        discriminate ].
  - unfold lane_events, lanes. cbn [map concat].
    rewrite !finalized_app, finalized_key_events, !finalized_updates.
    reflexivity.
  - unfold lanes. cbn [map app].
    repeat (apply Forall_cons_2; [reflexivity|]). apply Forall_nil_2.
Qed.

(** ** The buffers handed to [blake2s_update] *)

(** X14.  In a valid call no [blake2s_update] is made with an empty buffer
    or with more than one block: the key block has 64 bytes, every input
    slice between 1 and 64 bytes (the tail update is skipped rather than
    made with length 0), and every lane digest 32 bytes. *)
Theorem updates_never_empty input key outlen salt_ personal_ :
  valid_call input key outlen ->
  init_accepts_bounded ->
  Forall (fun e =>
            match e with
            | ev_update _ bytes => (0 < length bytes <= 64)%nat
            | _ => True
            end)
         (m_trace (snd (run input key outlen salt_ personal_))).
Proof.
  intros Hv Hacc. rewrite (run_eval _ _ _ _ _ Hv Hacc). cbn [snd].
  destruct Hv as (HL & Hk & _).
  assert (Hchunks : forall i, 0 <= i <= 7 ->
            Forall (fun e => match e with
                             | ev_update _ bytes => (0 < length bytes <= 64)%nat
                             | _ => True
                             end)
                   (map (ev_update (S_ i)) (lane_chunks input i))).
  { intros i Hi. apply Forall_forall. intros e He.
    apply list_elem_of_In, in_map_iff in He. destruct He as (c & <- & Hc).
    unfold lane_chunks in Hc. apply in_map_iff in Hc. destruct Hc as (sl & <- & Hsl).
    pose proof (lane_slices_in_bounds (size input) i HL Hi) as Hb.
    rewrite Forall_forall in Hb.
    specialize (Hb sl (proj2 (list_elem_of_In _ _) Hsl)).
    rewrite length_load. arith. }
  unfold final_machine, key_events, lane_events, lanes. cbn [m_trace map concat app].
  pose proof (length_key_block key Hk) as Hkb.
  destruct (size key >? 0);
  repeat first
    [ apply Forall_nil_2
    | apply Forall_app_2
    | apply Hchunks; lia
    | apply Forall_cons_2;
      [ first [ exact I
              | rewrite Hkb; unfold BLAKE2S_BLOCKBYTES; lia
              | unfold lane_digest; rewrite length_final_bytes;
                unfold BLAKE2S_OUTBYTES; lia ] |] ].
Qed.

End Blake2sp.

(** * Runs on concrete calls *)

Ltac closed_arith := vm_compute; repeat split; intros; discriminate.

(** Lane 1 of the 600-byte input under a 2-byte key: the key block, one full
    block and a 24-byte tail; the call returns 4 bytes. *)
Example run_600_lane1_absorbs :
  map (fun s => map length (absorbed s))
      (omap id (take 2 (m_S (snd (run toy_status toy_hash toy_stack input600 key2 4
                                     salt8 no_personal)))))
  = [[64; 64; 64]; [64; 64; 24]]%nat.
Proof. vm_compute. reflexivity. Qed.

Example run_600_returns_four_bytes :
  exists d,
    fst (run toy_status toy_hash toy_stack input600 key2 4 salt8 no_personal)
      = Return (term_list d) /\ length d = 4%nat.
Proof. eexists. vm_compute. split; reflexivity. Qed.

Example run_zero_outlen_returns_minus_one :
  run toy_status toy_hash toy_stack input600 key2 0 salt8 no_personal
    = (Return (term_int (-1)), machine0).
Proof. vm_compute. reflexivity. Qed.

Lemma lane_absorbs_strided_slice_witness :
  exists s : blake2s_state,
    (forall s' n,
       In (S_ 1, s', n)
          (finalized (m_trace (snd (run toy_status toy_hash toy_stack input600 key2 4
                                      salt8 no_personal))))
       <-> s' = s /\ n = BLAKE2S_OUTBYTES) /\
    absorbed s =
      key_chunks key2
      ++ map (fun sl => load (data input600) (fst sl) (snd sl))
             (lane_slices (size input600) 1) /\
    Forall (fun sl => 0 <= fst sl /\ 0 < snd sl <= BLAKE2S_BLOCKBYTES
                      /\ fst sl + snd sl <= size input600)
           (lane_slices (size input600) 1).
Proof.
  apply (lane_absorbs_strided_slice toy_status toy_hash toy_stack input600 key2 4
           salt8 no_personal 1).
  - unfold valid_call. closed_arith.
  - intros P _ _. closed_arith.
  - lia.
Defined.

Lemma parameter_block_fields_witness :
  let blocks := init_blocks (m_trace (snd (run toy_status toy_hash toy_stack input600 key2 4
                                             salt8 no_personal))) in
  map fst blocks = map S_ lanes ++ [FS_] /\
  Forall (fun rP =>
            let P := snd rP in
            digest_length P = 4 /\ key_length P = size key2 /\
            fanout P = 8 /\ depth P = 2 /\ leaf_length P = 0 /\
            inner_length P = 32 /\
            match fst rP with
            | S_ i => node_offset P = i /\ node_depth P = 0
            | FS_ => node_offset P = 0 /\ node_depth P = 1
            end)
         blocks.
Proof.
  apply (parameter_block_fields toy_status toy_hash toy_stack input600 key2 4
           salt8 no_personal).
  - unfold valid_call. closed_arith.
  - intros P _ _. closed_arith.
Defined.

Lemma last_node_marks_witness :
  let fin := finalized (m_trace (snd (run toy_status toy_hash toy_stack no_key no_key 32
                                        salt8 no_personal))) in
  map (fun c => fst (fst c)) fin = map S_ lanes ++ [FS_] /\
  Forall (fun c =>
            match fst (fst c) with
            | S_ i => last_node (snd (fst c)) = (if i =? 7 then 1 else 0)
            | FS_ => last_node (snd (fst c)) = 1
            end)
         fin.
Proof.
  apply (last_node_marks toy_status toy_hash toy_stack no_key no_key 32 salt8 no_personal).
  - unfold valid_call. closed_arith.
  - intros P _ _. closed_arith.
Defined.

Lemma root_combines_lane_digests_witness :
  exists (ls : list blake2s_state) (root : blake2s_state) (d : list Z),
    length ls = 8%nat /\
    finalized (m_trace (snd (run toy_status toy_hash toy_stack input600 key2 4
                               salt8 no_personal))) =
      map (fun c => (S_ (fst c), snd c, 32)) (zip lanes ls) ++ [(FS_, root, 4)] /\
    m_hash (snd (run toy_status toy_hash toy_stack input600 key2 4 salt8 no_personal)) =
      map (fun s => Some (final_bytes toy_hash s 32)) ls /\
    absorbed root = map (fun s => final_bytes toy_hash s 32) ls /\
    Forall (fun h => length h = 32%nat) (absorbed root) /\
    d = map enif_make_uint (final_bytes toy_hash root 4) /\
    length d = Z.to_nat 4 /\
    fst (run toy_status toy_hash toy_stack input600 key2 4 salt8 no_personal) =
      Return (term_list d).
Proof.
  apply (root_combines_lane_digests toy_status toy_hash toy_stack input600 key2 4
           salt8 no_personal).
  - unfold valid_call. closed_arith.
  - intros P _ _. closed_arith.
Defined.

Lemma key_block_absorbed_by_leaves_only_witness :
  let fin := finalized (m_trace (snd (run toy_status toy_hash toy_stack input600 key2 4
                                        salt8 no_personal))) in
  let kb := load (data key2) 0 (size key2)
            ++ replicate (Z.to_nat (64 - size key2)) x00 in
  length kb = 64%nat /\
  map (fun c => fst (fst c)) fin = map S_ lanes ++ [FS_] /\
  Forall (fun c =>
            let s := snd (fst c) in
            match fst (fst c) with
            | S_ i =>
                absorbed s =
                  kb :: map (fun sl => load (data input600) (fst sl) (snd sl))
                            (lane_slices (size input600) i)
            | FS_ => ~ In kb (absorbed s) /\ key_length (init_param s) = size key2
            end)
         fin.
Proof.
  apply (key_block_absorbed_by_leaves_only toy_status toy_hash toy_stack input600 key2 4
           salt8 no_personal).
  - unfold valid_call. closed_arith.
  - intros P _ _. closed_arith.
  - closed_arith.
Defined.

Lemma configuration_errors_witness :
  run toy_status toy_hash toy_stack input600 key2 0 salt8 no_personal
    = (Return (term_int (-1)), machine0) /\
  run toy_status toy_hash toy_stack input600 key2 33 salt8 no_personal
    = (Return (term_int (-1)), machine0) /\
  (exists P rest,
     m_trace (snd (run toy_status toy_hash toy_stack input600 key2 4 salt8 no_personal)) =
     ev_init_param (S_ 0) P :: rest) /\
  exists d,
    fst (run toy_status toy_hash toy_stack input600 key2 4 salt8 no_personal)
      = Return (term_list d) /\
    length d = Z.to_nat 4.
Proof.
  split; [|split].
  - apply (configuration_errors toy_status toy_hash toy_stack input600 key2 0
             salt8 no_personal); [closed_arith | closed_arith | ].
    left. reflexivity.
  - apply (configuration_errors toy_status toy_hash toy_stack input600 key2 33
             salt8 no_personal); [closed_arith | closed_arith | ].
    right. left. closed_arith.
  - destruct (configuration_errors toy_status toy_hash toy_stack input600 key2 4
                salt8 no_personal) as (_ & Hin); [closed_arith | closed_arith | ].
    destruct Hin as (Hstart & Hdigest).
    + unfold BLAKE2S_OUTBYTES, BLAKE2S_KEYBYTES. closed_arith.
    + split; [exact Hstart|]. apply Hdigest. intros P _ _. closed_arith.
Defined.

Lemma key_block_burnt_after_use_witness :
  let m := snd (run toy_status toy_hash toy_stack input600 key2 4 salt8 no_personal) in
  let kb := load (data key2) 0 (size key2)
            ++ replicate (Z.to_nat (64 - size key2)) x00 in
  (exists (P : Z -> blake2s_param) (rest : list event),
     m_trace m =
       map (fun i => ev_init_param (S_ i) (P i)) lanes
       ++ map (fun i => ev_update (S_ i) kb) lanes
       ++ [ev_secure_zero_memory 64] ++ rest) /\
  m_block m = Some (replicate 64 x00).
Proof.
  apply (key_block_burnt_after_use toy_status toy_hash toy_stack input600 key2 4
           salt8 no_personal).
  - unfold valid_call. closed_arith.
  - intros P _ _. closed_arith.
  - closed_arith.
Defined.

Lemma parameter_blocks_distinct_witness :
  let blocks := init_blocks (m_trace (snd (run toy_status toy_hash toy_stack input600 key2 4
                                             salt8 no_personal))) in
  length blocks = 9%nat /\
  List.NoDup (map snd blocks) /\
  (forall i j P Q,
     In (S_ i, P) blocks -> In (S_ j, Q) blocks -> i <> j ->
     node_offset P <> node_offset Q /\ same_but_node_offset P Q) /\
  (forall i P R,
     In (S_ i, P) blocks -> In (FS_, R) blocks ->
     node_depth P = 0 /\ node_depth R = 1).
Proof.
  apply (parameter_blocks_distinct toy_status toy_hash toy_stack input600 key2 4
           salt8 no_personal).
  - unfold valid_call. closed_arith.
  - intros P _ _. closed_arith.
Defined.

Lemma no_key_block_without_key_witness :
  let m := snd (run toy_status toy_hash toy_stack input600 no_key 4 salt8 no_personal) in
  let fin := finalized (m_trace m) in
  m_block m = None /\
  ~ (exists n, In (ev_secure_zero_memory n) (m_trace m)) /\
  map (fun c => fst (fst c)) fin = map S_ lanes ++ [FS_] /\
  Forall (fun c =>
            match fst (fst c) with
            | S_ i =>
                absorbed (snd (fst c)) =
                  map (fun sl => load (data input600) (fst sl) (snd sl))
                      (lane_slices (size input600) i)
            | FS_ => True
            end)
         fin.
Proof.
  apply (no_key_block_without_key toy_status toy_hash toy_stack input600 no_key 4
           salt8 no_personal).
  - unfold valid_call. closed_arith.
  - intros P _ _. closed_arith.
  - reflexivity.
Defined.

(** C6.  With a salt of 3 bytes the salt member of all nine parameter
    blocks holds the 3 salt bytes followed by the 5 bytes found after the
    binary in memory, not by zero bytes: [memcpy] copies
    [BLAKE2S_SALTBYTES] bytes whatever the length of the salt.  The same
    salt in front of other memory gives other blocks. *)
Theorem salt_field_tail_not_zeroed :
  let blocks_of salt_ :=
    init_blocks (m_trace (snd (run toy_status toy_hash toy_stack input600 no_key 32
                                 salt_ no_personal))) in
  size salt3 = 3 /\
  length (blocks_of salt3) = 9%nat /\
  Forall (fun rP => salt (snd rP) = [x01; x02; x03; xff; xff; xff; xff; xff])
         (blocks_of salt3) /\
  Forall (fun rP => salt (snd rP) <> [x01; x02; x03; x00; x00; x00; x00; x00])
         (blocks_of salt3) /\
  Forall (fun rP => salt (snd rP) = [x01; x02; x03; x5a; x5a; x5a; x5a; x5a])
         (blocks_of (bin_of [x01; x02; x03] x5a)).
Proof.
  vm_compute. split; [reflexivity|]. split; [reflexivity|]. split; [|split].
  - repeat (apply Forall_cons_2; [reflexivity|]). apply Forall_nil_2.
  - repeat (apply Forall_cons_2; [discriminate|]). apply Forall_nil_2.
  - repeat (apply Forall_cons_2; [reflexivity|]). apply Forall_nil_2.
Qed.

(** * Runs of the further properties *)

Lemma leaf_rejection_aborts_witness :
  let r := run reject_leaf3 toy_hash toy_stack input600 key2 4 salt8 no_personal in
  fst r = Return (term_int (-1)) /\
  Forall (fun e => exists j P, e = ev_init_param (S_ j) P /\ 0 <= j <= 3)
         (m_trace (snd r)) /\
  m_block (snd r) = None /\
  m_hash (snd r) = replicate 8 None /\
  m_FS (snd r) = None /\
  m_out (snd r) = replicate 32 x00.
Proof.
  apply (leaf_rejection_aborts reject_leaf3 toy_hash toy_stack input600 key2 4
           salt8 no_personal 3).
  - unfold BLAKE2S_OUTBYTES. lia.
  - closed_arith.
  - lia.
  - vm_compute. reflexivity.
Defined.

Lemma root_rejection_aborts_witness :
  let r := run reject_root toy_hash toy_stack input600 key2 4 salt8 no_personal in
  fst r = Return (term_int (-1)) /\
  map (fun c => fst (fst c)) (finalized (m_trace (snd r))) = map S_ lanes /\
  (forall bytes, ~ In (ev_update FS_ bytes) (m_trace (snd r))) /\
  m_out (snd r) = replicate 32 x00 /\
  m_block (snd r) = if size key2 >? 0 then Some (replicate 64 x00) else None.
Proof.
  apply (root_rejection_aborts reject_root toy_hash toy_stack input600 key2 4
           salt8 no_personal).
  - unfold valid_call. closed_arith.
  - intros i Hi.
    assert (Hc : i = 0 \/ i = 1 \/ i = 2 \/ i = 3 \/ i = 4 \/ i = 5 \/ i = 6 \/ i = 7)
      by lia.
    repeat (destruct Hc as [->|Hc]); try subst i; closed_arith.
  - vm_compute. reflexivity.
Defined.


Lemma call_returns_error_or_digest_witness :
  let r := run reject_leaf3 toy_hash toy_stack input600 key2 4 salt8 no_personal in
  fst r = Return (term_int (-1)) \/
  exists d, fst r = Return (term_list d) /\ length d = Z.to_nat 4 /\
            Forall (fun v => 0 <= v < 256) d.
Proof.
  apply (call_returns_error_or_digest reject_leaf3 toy_hash toy_stack input600 key2 4
           salt8 no_personal).
  - closed_arith.
  - closed_arith.
  - closed_arith.
  - right. closed_arith.
  - left. reflexivity.
Defined.

Lemma key_block_clean_on_every_return_witness :
  let m := snd (run reject_root toy_hash toy_stack input600 key2 4 salt8 no_personal) in
  m_block m = None \/ m_block m = Some (replicate 64 x00).
Proof.
  apply (key_block_clean_on_every_return reject_root toy_hash toy_stack input600 key2 4
           salt8 no_personal).
  - unfold valid_call. closed_arith.
  - closed_arith.
Defined.

Lemma input_and_key_read_within_size_witness :
  run toy_status toy_hash toy_stack two_bytes_a two_bytes_a 4 salt8 no_personal =
  run toy_status toy_hash toy_stack two_bytes_b two_bytes_b 4 salt8 no_personal.
Proof.
  apply (input_and_key_read_within_size toy_status toy_hash toy_stack
           two_bytes_a two_bytes_b two_bytes_a two_bytes_b 4 salt8 no_personal).
  - split; [reflexivity|]. intros k Hk.
    assert (Hc : k = 0 \/ k = 1) by (change (size two_bytes_a) with 2 in Hk; lia).
    destruct Hc as [->| ->]; reflexivity.
  - split; [reflexivity|]. intros k Hk.
    assert (Hc : k = 0 \/ k = 1) by (change (size two_bytes_a) with 2 in Hk; lia).
    destruct Hc as [->| ->]; reflexivity.
Defined.

Lemma salt_of_256_bytes_is_ignored_witness :
  run toy_status toy_hash toy_stack input600 key2 4 salt256 salt8 =
  run toy_status toy_hash toy_stack input600 key2 4 no_personal salt8 /\
  run toy_status toy_hash toy_stack input600 key2 4 salt8 salt256 =
  run toy_status toy_hash toy_stack input600 key2 4 salt8 no_personal.
Proof.
  apply (salt_of_256_bytes_is_ignored toy_status toy_hash toy_stack input600 key2 4
           salt256 no_personal salt8); vm_compute; reflexivity.
Defined.

Lemma salt_cut_to_eight_bytes_witness :
  run toy_status toy_hash toy_stack input600 key2 4 salt9 no_personal =
  run toy_status toy_hash toy_stack input600 key2 4 salt8 no_personal /\
  run toy_status toy_hash toy_stack input600 key2 4 no_personal salt9 =
  run toy_status toy_hash toy_stack input600 key2 4 no_personal salt8.
Proof.
  apply (salt_cut_to_eight_bytes toy_status toy_hash toy_stack input600 key2 4
           salt9 salt8 no_personal); [closed_arith | closed_arith | ].
  intros k Hk.
  assert (Hc : k = 0 \/ k = 1 \/ k = 2 \/ k = 3 \/ k = 4 \/ k = 5 \/ k = 6 \/ k = 7)
    by lia.
  repeat (destruct Hc as [->|Hc]); try subst k; reflexivity.
Defined.

Lemma lanes_touch_only_their_own_objects_witness :
  exists m',
    run_lanes toy_hash toy_stack input600 [5; 2] ready_machine = (Next tt, m') /\
    (length (m_hash m') = 8%nat /\ length (m_S m') = length (m_S ready_machine)) /\
    (forall i s, In i [5; 2] -> get_state (S_ i) ready_machine = Some s ->
       get_state (S_ i) m' = Some (with_absorbed s (lane_chunks input600 i)) /\
       m_hash m' !! Z.to_nat i =
         Some (Some (final_bytes toy_hash (with_absorbed s (lane_chunks input600 i))
                       BLAKE2S_OUTBYTES))) /\
    (forall i, 0 <= i -> ~ In i [5; 2] ->
       m_S m' !! Z.to_nat i = m_S ready_machine !! Z.to_nat i /\
       m_hash m' !! Z.to_nat i = m_hash ready_machine !! Z.to_nat i) /\
    m_FS m' = m_FS ready_machine /\ m_block m' = m_block ready_machine /\
    m_out m' = m_out ready_machine.
Proof.
  apply (lanes_touch_only_their_own_objects toy_hash toy_stack input600 [5; 2] ready_machine).
  - closed_arith.
  - repeat (apply List.NoDup_cons; [cbn [In]; lia|]). apply List.NoDup_nil.
  - reflexivity.
  - intros i [<-|[<-|[]]]; (split; [lia|eexists; reflexivity]).
Defined.

Lemma lanes_in_any_order_witness :
  exists m1 m2,
    run_lanes toy_hash toy_stack input600 [1; 0; 2; 3; 4; 5; 6; 7] ready_machine = (Next tt, m1) /\
    for_ 0 PARALLELISM_DEGREE (lane toy_hash toy_stack input600) ready_machine = (Next tt, m2) /\
    m_S m1 = m_S m2 /\ m_hash m1 = m_hash m2 /\
    m_FS m1 = m_FS m2 /\ m_block m1 = m_block m2 /\ m_out m1 = m_out m2.
Proof.
  apply (lanes_in_any_order toy_hash toy_stack input600 [1; 0; 2; 3; 4; 5; 6; 7] ready_machine).
  - closed_arith.
  - apply perm_swap.
  - reflexivity.
  - reflexivity.
  - intros i Hi.
    assert (Hc : i = 0 \/ i = 1 \/ i = 2 \/ i = 3 \/ i = 4 \/ i = 5 \/ i = 6 \/ i = 7)
      by lia.
    repeat (destruct Hc as [->|Hc]); try subst i; eexists; reflexivity.
Defined.

Lemma input_shared_out_exactly_witness :
  let tr := m_trace (snd (run toy_status toy_hash toy_stack input600 key2 4
                            salt8 no_personal)) in
  exists slices : Z -> list (Z * Z),
    (forall i, 0 <= i <= 7 ->
       exists s, In (S_ i, s, BLAKE2S_OUTBYTES) (finalized tr) /\
                 absorbed s =
                   key_chunks key2
                   ++ map (fun sl => load (data input600) (fst sl) (snd sl))
                          (slices i)) /\
    (forall k, 0 <= k < size input600 ->
       exists i sl, 0 <= i <= 7 /\ In sl (slices i) /\
                    fst sl <= k < fst sl + snd sl /\
                    forall i' sl', 0 <= i' <= 7 -> In sl' (slices i') ->
                                   fst sl' <= k < fst sl' + snd sl' ->
                                   i' = i /\ sl' = sl) /\
    Zsum (map (fun i => Zsum (map snd (slices i))) lanes) = size input600.
Proof.
  apply (input_shared_out_exactly toy_status toy_hash toy_stack input600 key2 4
           salt8 no_personal).
  - unfold valid_call. closed_arith.
  - intros P _ _. closed_arith.
Defined.

Lemma short_input_goes_to_lane_0_witness :
  let fin := finalized (m_trace (snd (run toy_status toy_hash toy_stack two_bytes_a key2 4
                                        salt8 no_personal))) in
  map (fun c => fst (fst c)) fin = map S_ lanes ++ [FS_] /\
  Forall (fun c =>
            match fst (fst c) with
            | S_ i =>
                absorbed (snd (fst c)) =
                  key_chunks key2
                  ++ (if (i =? 0) && (size two_bytes_a >? 0)
                      then [load (data two_bytes_a) 0 (size two_bytes_a)] else [])
            | FS_ => True
            end)
         fin.
Proof.
  apply (short_input_goes_to_lane_0 toy_status toy_hash toy_stack two_bytes_a key2 4
           salt8 no_personal).
  - unfold valid_call. closed_arith.
  - intros P _ _. closed_arith.
  - closed_arith.
Defined.

Lemma root_starts_after_all_leaves_witness :
  exists pre post P,
    m_trace (snd (run toy_status toy_hash toy_stack input600 key2 4 salt8 no_personal)) =
      pre ++ ev_init_param FS_ P :: post /\
    Forall (fun e => event_state e <> Some FS_) pre /\
    map (fun c => fst (fst c)) (finalized pre) = map S_ lanes /\
    Forall (fun e => event_state e = Some FS_) post.
Proof.
  apply (root_starts_after_all_leaves toy_status toy_hash toy_stack input600 key2 4
           salt8 no_personal).
  - unfold valid_call. closed_arith.
  - intros P _ _. closed_arith.
Defined.

Lemma updates_never_empty_witness :
  Forall (fun e =>
            match e with
            | ev_update _ bytes => (0 < length bytes <= 64)%nat
            | _ => True
            end)
         (m_trace (snd (run toy_status toy_hash toy_stack input600 key2 4 salt8 no_personal))).
Proof.
  apply (updates_never_empty toy_status toy_hash toy_stack input600 key2 4 salt8 no_personal).
  - unfold valid_call. closed_arith.
  - intros P _ _. closed_arith.
Defined.
